(** * A Telegram media-relay bot: link matching and the per-URL delivery pipeline

    Shallow embedding of [main.py]: the [PLATFORMS] pattern table, the scan
    [handle_message] performs with [re.findall], and [process_url] with its
    [try] / [except] / [finally] discipline over the chat, the fetcher and the
    file system. *)

From Stdlib Require Import String Ascii List NArith ZArith Arith Bool Lia Sorted.
Import ListNotations.

Open Scope string_scope.
Open Scope list_scope.
Open Scope nat_scope.

(** ** Python values that flow through the handlers *)

(** A Python [str] is a sequence of code points. *)
Definition char := N.
Definition text := list char.

(** The code points of an ASCII literal. *)
Definition code (a : ascii) : char := N_of_ascii a.

Definition str (s : string) : text := map code (list_ascii_of_string s).

(** What [re.findall] puts in its result list: a [str], or a tuple of
    [str] when the pattern has several groups. *)
Inductive pyval :=
| PyStr (s : text)
| PyTuple (items : list text).

(** An instance of [Exception], with what [str(e)] gives.  These are the
    exceptions the libraries raise and [except Exception] catches; signals
    that only derive from [BaseException] (task cancellation, keyboard
    interrupt) are outside the model. *)
Inductive exn := Exception (what : string).

(** The tables of the Unicode database that [re] consults for code points
    above 127: membership in category Nd (for [\d]) and the pairs a literal
    matches under [re.IGNORECASE] (simple lower-casing and the case fixes). *)
Record unicode_db := {
  uni_digit : char -> bool;
  uni_ignorecase : char -> char -> bool
}.

(** ** Regular expressions: the constructs the pattern table uses *)

Inductive regex :=
| Eps
| Chr (c : char)               (* a literal character *)
| NotChr (c : char)            (* [^c] *)
| Digit                        (* \d *)
| Seq (r1 r2 : regex)
| Alt (r1 r2 : regex)          (* r1|r2 *)
| Opt (r : regex)              (* r?  greedy *)
| Plus (r : regex)             (* r+  greedy *)
| Group (i : nat) (r : regex). (* (r), the i-th capturing group *)

(** A sequence of atoms, nested to the right as the parser nests it. *)
Fixpoint cat (rs : list regex) : regex :=
  match rs with
  | [] => Eps
  | [r] => r
  | r :: rs' => Seq r (cat rs')
  end.

(** Literal text, character by character. *)
Definition chars (s : string) : list regex :=
  map (fun a => Chr (code a)) (list_ascii_of_string s).

(** [pattern.groups]: the number of capturing groups. *)
Fixpoint ngroups (r : regex) : nat :=
  match r with
  | Eps | Chr _ | NotChr _ | Digit => 0
  | Seq r1 r2 | Alt r1 r2 => ngroups r1 + ngroups r2
  | Opt r1 | Plus r1 => ngroups r1
  | Group _ r1 => S (ngroups r1)
  end.

(** Captured groups, most recent binding first. *)
Definition groups := list (nat * text).

Fixpoint group_lookup (i : nat) (g : groups) : option text :=
  match g with
  | [] => None
  | (j, t) :: g' => if Nat.eqb i j then Some t else group_lookup i g'
  end.

Module Re.

Section Matcher.

Variable U : unicode_db.

Definition lower_code (c : char) : char :=
  if ((65 <=? c) && (c <=? 90))%N then (c + 32)%N else c.

(** A literal under [re.IGNORECASE]. *)
Definition chr_ignorecase (c t : char) : bool :=
  if ((c <? 128) && (t <? 128))%N
  then (lower_code t =? lower_code c)%N
  else uni_ignorecase U c t.

(** [\d] on a [str] pattern: any decimal digit. *)
Definition is_digit (t : char) : bool :=
  if (t <? 128)%N then ((48 <=? t) && (t <=? 57))%N else uni_digit U t.

Section Backtracking.

Variable A : Type.

Definition cont := text -> groups -> option A.

(** Greedy repetition: one more iteration of [step] first, the rest of
    the pattern when that fails.  An iteration that consumes nothing
    ends the loop, so [S (length s)] rounds are never exhausted. *)
Fixpoint plus_loop (step : text -> groups -> cont -> option A) (k : cont)
         (n : nat) (s : text) (g : groups) : option A :=
  match n with
  | 0 => None
  | S n' =>
      step s g (fun s' g' =>
        if length s' <? length s then
          match plus_loop step k n' s' g' with
          | Some x => Some x
          | None => k s' g'
          end
        else k s' g')
  end.

(** The backtracking matcher: [s] is what is left of the subject, [g]
    the groups bound so far, [k] the rest of the pattern.  The first
    alternative that lets the continuation succeed wins. *)
Fixpoint rmatch (r : regex) (s : text) (g : groups) (k : cont) : option A :=
  match r with
  | Eps => k s g
  | Chr c =>
      match s with
      | t :: s' => if chr_ignorecase c t then k s' g else None
      | [] => None
      end
  | NotChr c =>
      match s with
      | t :: s' => if negb (t =? c)%N then k s' g else None
      | [] => None
      end
  | Digit =>
      match s with
      | t :: s' => if is_digit t then k s' g else None
      | [] => None
      end
  | Seq r1 r2 => rmatch r1 s g (fun s' g' => rmatch r2 s' g' k)
  | Alt r1 r2 =>
      match rmatch r1 s g k with
      | Some x => Some x
      | None => rmatch r2 s g k
      end
  | Opt r1 =>
      match rmatch r1 s g k with
      | Some x => Some x
      | None => k s g
      end
  | Plus r1 => plus_loop (rmatch r1) k (S (length s)) s g
  | Group i r1 =>
      rmatch r1 s g (fun s' g' =>
        k s' ((i, firstn (length s - length s') s) :: g'))
  end.

End Backtracking.

(** Top-level success: with [must_advance] an empty match at the starting
    position is refused, and the matcher backtracks. *)
Definition accept (must_advance : bool) (s : text) : cont (text * groups) :=
  fun s' g =>
    if must_advance && (length s' =? length s) then None else Some (s', g).

(** [search]: the first position from [s] on where the pattern matches.
    Returns the suffix where the match starts, the suffix where it ends
    and the groups.  [must_advance] only applies to the first position. *)
Fixpoint search (r : regex) (s : text) (must_advance : bool)
  : option (text * text * groups) :=
  match rmatch _ r s [] (accept must_advance s) with
  | Some (e, g) => Some (s, e, g)
  | None =>
      match s with
      | [] => None
      | _ :: s' => search r s' false
      end
  end.

(** One match: offsets into the subject and its groups. *)
Record occurrence := {
  m_start : nat;
  m_end : nat;
  m_groups : groups
}.

(** The scanning loop of [findall]: search, record, restart where the
    match ended; after an empty match the next one must advance. *)
Fixpoint scan_loop (fuel : nat) (r : regex) (n : nat) (s : text)
         (must_advance : bool) : list occurrence :=
  match fuel with
  | 0 => []
  | S fuel' =>
      match search r s must_advance with
      | None => []
      | Some (b, e, g) =>
          {| m_start := n - length b; m_end := n - length e; m_groups := g |}
            :: scan_loop fuel' r n e (length e =? length b)
      end
  end.

Definition scan_fuel (s : text) (must_advance : bool) : nat :=
  2 * length s + (if must_advance then 1 else 2).

Definition occurrences (r : regex) (subject : text) : list occurrence :=
  scan_loop (scan_fuel subject false) r (length subject) subject false.

Definition slice (subject : text) (b e : nat) : text :=
  firstn (e - b) (skipn b subject).

(** A group that did not take part in the match shows as the empty
    string. *)
Definition group_or_empty (g : groups) (i : nat) : text :=
  match group_lookup i g with
  | Some t => t
  | None => []
  end.

(** The item [findall] appends for a match: the whole match when the
    pattern has no group, the group when it has one, the tuple of all
    groups otherwise. *)
Definition findall_item (r : regex) (subject : text) (m : occurrence) : pyval :=
  match ngroups r with
  | 0 => PyStr (slice subject (m_start m) (m_end m))
  | 1 => PyStr (group_or_empty (m_groups m) 1)
  | S (S k) => PyTuple (map (group_or_empty (m_groups m)) (seq 1 (S (S k))))
  end.

End Matcher.

(** *** Patterns as written *)

(** Characters with a meaning of their own in a pattern. *)
Definition special (a : ascii) : bool :=
  existsb (Ascii.eqb a)
          ["("; ")"; "["; "]"; "{"; "}"; "|"; "?"; "+"; "*"; "."; "^"; "$"; "\"]%char.

Definition is_alnum (a : ascii) : bool :=
  let n := nat_of_ascii a in
  ((48 <=? n) && (n <=? 57)) || ((65 <=? n) && (n <=? 90))
  || ((97 <=? n) && (n <=? 122)).

(** The expression read, what is left of the pattern, and the number of
    groups opened so far. *)
Definition parsed : Type := regex * list ascii * nat.

(** The parser: alternatives of sequences of atoms, each with an optional
    [?] or [+]; an atom is a group, a negated one-character class, [\d], an
    escaped punctuation sign or a plain character.  Groups are numbered by
    their opening parenthesis.  Any other construct is refused. *)
Fixpoint parse_alt (fuel : nat) (s : list ascii) (n : nat) : option parsed :=
  match fuel with
  | 0 => None
  | S fuel' =>
      match parse_seq fuel' s n with
      | Some (r1, "|"%char :: s1, n1) =>
          match parse_alt fuel' s1 n1 with
          | Some (r2, s2, n2) => Some (Alt r1 r2, s2, n2)
          | None => None
          end
      | other => other
      end
  end
with parse_seq (fuel : nat) (s : list ascii) (n : nat) : option parsed :=
  match fuel with
  | 0 => None
  | S fuel' =>
      match s with
      | [] | "|"%char :: _ | ")"%char :: _ => Some (Eps, s, n)
      | _ =>
          match parse_piece fuel' s n with
          | Some (r1, s1, n1) =>
              match parse_seq fuel' s1 n1 with
              | Some (Eps, s2, n2) => Some (r1, s2, n2)
              | Some (r2, s2, n2) => Some (Seq r1 r2, s2, n2)
              | None => None
              end
          | None => None
          end
      end
  end
with parse_piece (fuel : nat) (s : list ascii) (n : nat) : option parsed :=
  match fuel with
  | 0 => None
  | S fuel' =>
      match parse_atom fuel' s n with
      | Some (r, "?"%char :: s1, n1) => Some (Opt r, s1, n1)
      | Some (r, "+"%char :: s1, n1) => Some (Plus r, s1, n1)
      | Some (r, "*"%char :: _, _) => None
      | Some (r, "{"%char :: _, _) => None
      | other => other
      end
  end
with parse_atom (fuel : nat) (s : list ascii) (n : nat) : option parsed :=
  match fuel with
  | 0 => None
  | S fuel' =>
      match s with
      | "("%char :: "?"%char :: _ => None
      | "("%char :: s1 =>
          match parse_alt fuel' s1 (S n) with
          | Some (r, ")"%char :: s2, n2) => Some (Group (S n) r, s2, n2)
          | _ => None
          end
      | "["%char :: "^"%char :: c :: "]"%char :: s1 =>
          if special c then None else Some (NotChr (code c), s1, n)
      | "\"%char :: "d"%char :: s1 => Some (Digit, s1, n)
      | "\"%char :: c :: s1 =>
          if is_alnum c then None else Some (Chr (code c), s1, n)
      | c :: s1 => if special c then None else Some (Chr (code c), s1, n)
      | [] => None
      end
  end.

(** [re.compile(pattern)], on the constructs above. *)
Definition compile (pattern : string) : option regex :=
  let s := list_ascii_of_string pattern in
  match parse_alt (4 * length s + 4) s 0 with
  | Some (r, [], _) => Some r
  | _ => None
  end.

(** What [re] raises on a pattern it cannot compile. *)
Definition re_error : exn := Exception "re.error".

(** [re.findall(pattern, string, re.IGNORECASE)]. *)
Definition findall (U : unicode_db) (pattern : string) (subject : text)
  : exn + list pyval :=
  match compile pattern with
  | Some r => inr (map (findall_item r subject) (occurrences U r subject))
  | None => inl re_error
  end.

(** The matches behind the items of [findall], and the item of a match. *)
Definition finditer (U : unicode_db) (pattern : string) (subject : text)
  : list occurrence :=
  match compile pattern with
  | Some r => occurrences U r subject
  | None => []
  end.

Definition item (pattern : string) (subject : text) (m : occurrence) : pyval :=
  match compile pattern with
  | Some r => findall_item r subject m
  | None => PyStr []
  end.

End Re.

(** ** The pattern table *)

(** A [dict] literal keeps its insertion order. *)
Definition PLATFORMS : list (string * string) :=
  [ ("tiktok", "https?://(www\.)?tiktok\.com/@[^/]+/video/\d+");
    ("instagram", "https?://(www\.)?instagram\.com/(p|reel)/[^/]+/");
    ("twitter", "https?://(www\.)?(twitter\.com|x\.com)/[^/]+/status/\d+");
    ("tumblr", "https?://[^/]+\.tumblr\.com/post/\d+") ].

(** The (platform, url) pairs the two nested loops of [handle_message]
    go through, in the order they go through them. *)
Definition link_matcher (U : unicode_db) (message_text : text)
  : list (string * pyval) :=
  flat_map (fun entry : string * string =>
              let (platform, pattern) := entry in
              match Re.findall U pattern message_text with
              | inr urls => map (fun url => (platform, url)) urls
              | inl _ => []
              end)
           PLATFORMS.

(** The matches behind [link_matcher]: for each, the rank of its platform
    in [PLATFORMS] and where in the text it lies. *)
Definition link_occurrences (U : unicode_db) (message_text : text)
  : list (nat * Re.occurrence) :=
  flat_map (fun i =>
              map (fun m => (i, m))
                  (Re.finditer U (snd (nth i PLATFORMS ("", ""))) message_text))
           (seq 0 (length PLATFORMS)).

(** The pair the loops reach for an occurrence. *)
Definition link_of (message_text : text) (o : nat * Re.occurrence)
  : string * pyval :=
  let (platform, pattern) := nth (fst o) PLATFORMS ("", "") in
  (platform, Re.item pattern message_text (snd o)).

(** Order of the scan: an earlier platform first; within a platform, a
    match that ends before the other starts. *)
Definition scanned_before (a b : nat * Re.occurrence) : Prop :=
  fst a < fst b \/
  (fst a = fst b /\ Re.m_end (snd a) <= Re.m_start (snd b)).

(** ** Strings of the pipeline *)

Definition ascii_upper (a : ascii) : ascii :=
  let n := nat_of_ascii a in
  if (97 <=? n) && (n <=? 122) then ascii_of_nat (n - 32) else a.

Definition ascii_lower (a : ascii) : ascii :=
  let n := nat_of_ascii a in
  if (65 <=? n) && (n <=? 90) then ascii_of_nat (n + 32) else a.

Fixpoint lower (s : string) : string :=
  match s with
  | EmptyString => EmptyString
  | String a s' => String (ascii_lower a) (lower s')
  end.

(** [str.capitalize()]: first character upper-cased, the others
    lower-cased (on ASCII strings, which the keys of [PLATFORMS] are). *)
Definition capitalize (s : string) : string :=
  match s with
  | EmptyString => EmptyString
  | String a s' => String (ascii_upper a) (lower s')
  end.

(** [s.endswith(suffix)] *)
Definition endswith (s suffix : string) : bool :=
  let n := String.length s in
  let k := String.length suffix in
  (k <=? n) && String.eqb (substring (n - k) k s) suffix.

(** [s.endswith((suffix1, suffix2, ...))] *)
Definition endswith_any (s : string) (suffixes : list string) : bool :=
  existsb (endswith s) suffixes.

(** Truth value of a [str]. *)
Definition nonempty (s : string) : bool :=
  match s with
  | EmptyString => false
  | String _ _ => true
  end.

(** ** The outside world: chat, fetcher, file system, log *)

(** The [Message] a reply returns; edits address it by these two ids. *)
Record message := { chat_id : Z; message_id : Z }.

(** The info dict [extract_info] returns. *)
Definition info := list (string * string).

Record ydl_opts := {
  outtmpl : string;
  format : string;
  quiet : bool;
  no_warnings : bool;
  http_headers : list (string * string)
}.

Definition YDL_OPTS : ydl_opts := {|
  outtmpl := "downloads/%(id)s.%(ext)s";
  format := "best[filesize<50M]";
  quiet := false;
  no_warnings := false;
  http_headers :=
    [ ("User-Agent",
       "Mozilla/5.0 (Windows NT 10.0; Win64; x64) AppleWebKit/537.36 (KHTML, like Gecko) Chrome/126.0.0.0 Safari/537.36");
      ("Accept",
       "text/html,application/xhtml+xml,application/xml;q=0.9,image/webp,*/*;q=0.8") ]
|}.

(** An f-string with the values it interpolates. *)
Inductive frag :=
| Lit (s : string)
| Fmt (v : pyval)
| FmtText (t : option text)
| FmtExn (e : exn).

Definition fstring := list frag.

Inductive level := DEBUG | ERROR.

(** What a job does to the outside, with what came back: [inl e] when the
    call raised [e]. *)
Inductive event :=
| EvLog (lvl : level) (msg : fstring)
| EvReplyText (t : string) (r : exn + message)
| EvMakedirs (name : string) (r : exn + unit)
| EvYoutubeDL (opts : ydl_opts) (r : exn + unit)
| EvExtractInfo (url : pyval) (r : exn + info)
| EvPrepareFilename (i : info) (r : exn + string)
| EvYoutubeDLExit (r : exn + unit)
| EvEditMessageText (chat message : Z) (t : string) (r : exn + unit)
| EvOpen (path : string) (r : exn + unit)
| EvReplyVideo (path : string) (caption : fstring) (r : exn + unit)
| EvReplyPhoto (path : string) (caption : fstring) (r : exn + unit)
| EvClose (path : string) (r : exn + unit)
| EvPathExists (path : string) (r : bool)
| EvRemove (path : string) (r : exn + unit).

(** The world answers every call from what has happened so far. *)
Record world := {
  w_reply_text : list event -> string -> exn + message;
  w_makedirs : list event -> string -> exn + unit;
  w_YoutubeDL : list event -> ydl_opts -> exn + unit;
  w_extract_info : list event -> pyval -> exn + info;
  w_prepare_filename : list event -> info -> exn + string;
  w_YoutubeDL_exit : list event -> exn + unit;
  w_edit_message_text : list event -> Z -> Z -> string -> exn + unit;
  w_open : list event -> string -> exn + unit;
  w_reply_video : list event -> string -> fstring -> exn + unit;
  w_reply_photo : list event -> string -> fstring -> exn + unit;
  w_close : list event -> string -> exn + unit;
  w_path_exists : list event -> string -> bool;
  w_remove : list event -> string -> exn + unit
}.

(** ** Computations: local variables, exceptions, and the events emitted *)

Inductive result (A : Type) :=
| Ret (a : A)
| Exc (e : exn).

Arguments Ret {A} a.
Arguments Exc {A} e.

(** A computation runs in a world, after the history [h], from the local
    variables [s]; it gives a result, the local variables at that point and
    the events it added. *)
Definition M (S A : Type) : Type :=
  world -> list event -> S -> result A * S * list event.

Definition ret {S A} (a : A) : M S A := fun _ _ s => (Ret a, s, []).

Definition bind {S A B} (m : M S A) (f : A -> M S B) : M S B :=
  fun w h s =>
    match m w h s with
    | (Ret a, s', t) =>
        match f a w (h ++ t) s' with
        | (r, s'', t') => (r, s'', t ++ t')
        end
    | (Exc e, s', t) => (Exc e, s', t)
    end.

Notation "x <- m ;; f" := (bind m (fun x => f))
  (at level 61, m at next level, right associativity).
Notation "m ;;; f" := (bind m (fun _ => f))
  (at level 61, right associativity).

Definition get {S} : M S S := fun _ _ s => (Ret s, s, []).
Definition put {S} (s : S) : M S unit := fun _ _ _ => (Ret tt, s, []).

(** The value of a pure call that can raise. *)
Definition lift {S X} (r : exn + X) : M S X :=
  fun _ _ s => (match r with inl e => Exc e | inr x => Ret x end, s, []).

(** A call to the outside. *)
Definition perform {S X} (ask : world -> list event -> exn + X)
           (ev : exn + X -> event) : M S X :=
  fun w h s =>
    let r := ask w h in
    (match r with inl e => Exc e | inr x => Ret x end, s, [ev r]).

(** [try: body  except Exception as e: handler e] *)
Definition try_except {S A} (body : M S A) (handler : exn -> M S A) : M S A :=
  fun w h s =>
    match body w h s with
    | (Ret a, s', t) => (Ret a, s', t)
    | (Exc e, s', t) =>
        match handler e w (h ++ t) s' with
        | (r, s'', t') => (r, s'', t ++ t')
        end
    end.

(** [try: body  finally: fin]: [fin] always runs; what it raises replaces
    the outcome of [body]. *)
Definition try_finally {S A} (body : M S A) (fin : M S unit) : M S A :=
  fun w h s =>
    match body w h s with
    | (r, s', t) =>
        match fin w (h ++ t) s' with
        | (Ret _, s'', t') => (r, s'', t ++ t')
        | (Exc e, s'', t') => (Exc e, s'', t ++ t')
        end
    end.

(** [with enter as x: body x], for a context manager whose [__exit__]
    does not swallow exceptions. *)
Definition with_ {S X A} (enter : M S X) (exit_ : X -> M S unit)
           (body : X -> M S A) : M S A :=
  x <- enter ;; try_finally (body x) (exit_ x).

(** A call of a function with local variables of its own. *)
Definition call {S S' A} (init : S') (m : M S' A) : M S A :=
  fun w h s =>
    match m w h init with
    | (r, _, t) => (r, s, t)
    end.

(** [for x in xs: body x] *)
Fixpoint for_ {S X} (xs : list X) (body : X -> M S unit) : M S unit :=
  match xs with
  | [] => ret tt
  | x :: xs' => body x ;;; for_ xs' body
  end.

(** *** The calls

    Logging never raises: the [logging] module swallows the failures of
    its handlers.  [os.path.exists] never raises either: it answers [False]
    when the test itself fails. *)

Definition logger_debug {S} (msg : fstring) : M S unit :=
  fun _ _ s => (Ret tt, s, [EvLog DEBUG msg]).

Definition logger_error {S} (msg : fstring) : M S unit :=
  fun _ _ s => (Ret tt, s, [EvLog ERROR msg]).

Definition reply_text {S} (t : string) : M S message :=
  perform (fun w h => w_reply_text w h t) (EvReplyText t).

Definition makedirs {S} (name : string) : M S unit :=
  perform (fun w h => w_makedirs w h name) (EvMakedirs name).

Definition YoutubeDL {S} (opts : ydl_opts) : M S unit :=
  perform (fun w h => w_YoutubeDL w h opts) (EvYoutubeDL opts).

Definition YoutubeDL_exit {S} : M S unit :=
  perform (fun w h => w_YoutubeDL_exit w h) EvYoutubeDLExit.

Definition extract_info {S} (url : pyval) : M S info :=
  perform (fun w h => w_extract_info w h url) (EvExtractInfo url).

Definition prepare_filename {S} (i : info) : M S string :=
  perform (fun w h => w_prepare_filename w h i) (EvPrepareFilename i).

Definition edit_message_text {S} (m : message) (t : string) : M S unit :=
  perform (fun w h => w_edit_message_text w h (chat_id m) (message_id m) t)
          (EvEditMessageText (chat_id m) (message_id m) t).

Definition open_rb {S} (path : string) : M S unit :=
  perform (fun w h => w_open w h path) (EvOpen path).

Definition close {S} (path : string) : M S unit :=
  perform (fun w h => w_close w h path) (EvClose path).

Definition reply_video {S} (path : string) (caption : fstring) : M S unit :=
  perform (fun w h => w_reply_video w h path caption) (EvReplyVideo path caption).

Definition reply_photo {S} (path : string) (caption : fstring) : M S unit :=
  perform (fun w h => w_reply_photo w h path caption) (EvReplyPhoto path caption).

Definition path_exists {S} (path : string) : M S bool :=
  fun w h s =>
    let b := w_path_exists w h path in (Ret b, s, [EvPathExists path b]).

Definition remove {S} (path : string) : M S unit :=
  perform (fun w h => w_remove w h path) (EvRemove path).

(** ** [process_url] *)

Record locals := {
  status_message : option message;
  file_path : option string
}.

Definition set_status_message (m : message) : M locals unit :=
  fun _ _ s => (Ret tt, {| status_message := Some m; file_path := file_path s |}, []).

Definition set_file_path (p : string) : M locals unit :=
  fun _ _ s => (Ret tt, {| status_message := status_message s; file_path := Some p |}, []).

Definition video_suffixes : list string := [".mp4"; ".mkv"; ".webm"].
Definition photo_suffixes : list string := [".jpg"; ".jpeg"; ".png"; ".gif"].

Definition processing_text (platform : string) : string :=
  "Processing media from " ++ capitalize platform ++ "...".

Definition sending_video_text (platform : string) : string :=
  "Sending video from " ++ capitalize platform ++ "...".

Definition sending_photo_text (platform : string) : string :=
  "Sending photo from " ++ capitalize platform ++ "...".

Definition unsupported_text (platform : string) : string :=
  "Sorry, unsupported media type from " ++ platform ++ ".".

Definition caption (platform : string) (url : pyval) : fstring :=
  [Lit "From "; Lit (capitalize platform); Lit ": "; Fmt url].

(** ['video' if file_path and file_path.endswith(...) else 'media'] *)
Definition error_kind (fp : option string) : string :=
  match fp with
  | Some p => if nonempty p && endswith_any p video_suffixes then "video" else "media"
  | None => "media"
  end.

Definition error_message (fp : option string) (platform : string) : string :=
  "Error sending " ++ error_kind fp ++ " from " ++ capitalize platform
    ++ ". Please try again or use a different link.".

(** The [try] block. *)
Definition process_url_body (url : pyval) (platform : string) : M locals unit :=
  logger_debug [Lit "Starting processing for "; Fmt url] ;;;
  m <- reply_text (processing_text platform) ;;
  set_status_message m ;;;
  makedirs "downloads" ;;;
  logger_debug [Lit "Creating downloads directory"] ;;;
  logger_debug [Lit "Downloading media from "; Fmt url] ;;;
  p <- with_ (YoutubeDL YDL_OPTS) (fun _ => YoutubeDL_exit) (fun _ =>
         i <- extract_info url ;;
         p <- prepare_filename i ;;
         set_file_path p ;;;
         logger_debug [Lit "Downloaded file: "; Lit p] ;;;
         ret p) ;;
  if endswith_any p video_suffixes then
    logger_debug [Lit "Sending video: "; Lit p] ;;;
    edit_message_text m (sending_video_text platform) ;;;
    with_ (open_rb p) (fun _ => close p) (fun _ =>
      reply_video p (caption platform url)) ;;;
    logger_debug [Lit "Video sent successfully"] ;;;
    edit_message_text m "Video sent successfully!"
  else if endswith_any p photo_suffixes then
    logger_debug [Lit "Sending photo: "; Lit p] ;;;
    edit_message_text m (sending_photo_text platform) ;;;
    with_ (open_rb p) (fun _ => close p) (fun _ =>
      reply_photo p (caption platform url)) ;;;
    logger_debug [Lit "Photo sent successfully"] ;;;
    edit_message_text m "Photo sent successfully!"
  else
    logger_debug [Lit "Unsupported media type: "; Lit p] ;;;
    edit_message_text m (unsupported_text platform).

(** The [except Exception as e] block. *)
Definition process_url_except (url : pyval) (platform : string) (e : exn)
  : M locals unit :=
  logger_error [Lit "Error processing "; Fmt url; Lit ": "; FmtExn e] ;;;
  s <- get ;;
  let error_message := error_message (file_path s) platform in
  match status_message s with
  | Some m =>
      try_except
        (edit_message_text m error_message)
        (fun edit_error =>
           logger_error [Lit "Failed to edit message: "; FmtExn edit_error] ;;;
           _ <- reply_text error_message ;; ret tt)
  | None => _ <- reply_text error_message ;; ret tt
  end.

(** The [finally] block. *)
Definition process_url_finally : M locals unit :=
  s <- get ;;
  match file_path s with
  | Some p =>
      if nonempty p then
        ex <- path_exists p ;;
        if ex then
          logger_debug [Lit "Cleaning up file: "; Lit p] ;;;
          remove p
        else ret tt
      else ret tt
  | None => ret tt
  end.

Definition process_url {S} (url : pyval) (platform : string) : M S unit :=
  call {| status_message := None; file_path := None |}
    (try_finally
       (try_except (process_url_body url platform)
                   (process_url_except url platform))
       process_url_finally).

(** ** [handle_message] *)

(** Truth value of [update.message.text]. *)
Definition truthy (message_text : option text) : bool :=
  match message_text with
  | None | Some [] => false
  | Some (_ :: _) => true
  end.

Definition text_of (message_text : option text) : text :=
  match message_text with
  | Some t => t
  | None => []
  end.

Definition handle_message (U : unicode_db) (message_text : option text)
  : M unit unit :=
  logger_debug [Lit "Received message: "; FmtText message_text] ;;;
  if negb (truthy message_text) then ret tt
  else
    for_ PLATFORMS (fun entry : string * string =>
      let (platform, pattern) := entry in
      urls <- lift (Re.findall U pattern (text_of message_text)) ;;
      for_ urls (fun url =>
        logger_debug [Lit "Processing URL: "; Fmt url; Lit " from "; Lit platform] ;;;
        process_url url platform)).


(** ** Observations on a job *)

(** The events one call of [process_url] adds after the history [h], and
    how the call ends. *)
Definition job_events (w : world) (h : list event) (url : pyval)
           (platform : string) : list event :=
  snd (@process_url unit url platform w h tt).

Definition job_outcome (w : world) (h : list event) (url : pyval)
           (platform : string) : result unit :=
  fst (fst (@process_url unit url platform w h tt)).

(** ** Observations on the matcher *)

Definition suffix_of (s' s : text) : Prop := exists p, s = p ++ s'.

(** Whatever a matching step answers, its continuation answered it on a
    suffix of the subject. *)
Definition reaches_suffix (A : Type)
           (step : text -> groups -> Re.cont A -> option A) : Prop :=
  forall s g k x, step s g k = Some x ->
    exists s' g', suffix_of s' s /\ k s' g' = Some x.

(** Two continuations that agree on every subject of length at most [n]. *)
Definition agree (A : Type) (n : nat) (k1 k2 : Re.cont A) : Prop :=
  forall s g, length s <= n -> k1 s g = k2 s g.

(** A matching step only consults its continuation on what is left of its
    own subject. *)
Definition local (A : Type)
           (step : text -> groups -> Re.cont A -> option A) : Prop :=
  forall s g k1 k2, agree A (length s) k1 k2 -> step s g k1 = step s g k2.

(** An occurrence that lies between offset [k] and the end [n]. *)
Definition within (n k : nat) (m : Re.occurrence) : Prop :=
  k <= Re.m_start m /\ Re.m_start m <= Re.m_end m /\ Re.m_end m <= n.

Definition ends_before (m1 m2 : Re.occurrence) : Prop :=
  Re.m_end m1 <= Re.m_start m2.

(** ** Observations on the events of a job *)

Definition is_remove (e : event) : bool :=
  match e with EvRemove _ _ => true | _ => false end.

Definition is_path_exists (e : event) : bool :=
  match e with EvPathExists _ _ => true | _ => false end.

(** Attachment sends. *)
Definition is_send (e : event) : bool :=
  match e with EvReplyVideo _ _ _ | EvReplyPhoto _ _ _ => true | _ => false end.

Definition is_edit (e : event) : bool :=
  match e with EvEditMessageText _ _ _ _ => true | _ => false end.

(** Every operation on the chat: posts, attachment sends and edits. *)
Definition is_chat (e : event) : bool :=
  match e with
  | EvReplyText _ _ | EvEditMessageText _ _ _ _
  | EvReplyVideo _ _ _ | EvReplyPhoto _ _ _ => true
  | _ => false
  end.

Definition is_error_log (e : event) : bool :=
  match e with EvLog ERROR _ => true | _ => false end.

(** What the [finally] block does for the path [p]: [found] is what
    [os.path.exists] answered, [r] how [os.remove] ended. *)
Definition cleanup_trace (p : string) (found : bool) (r : exn + unit)
  : list event :=
  if nonempty p then
    EvPathExists p found ::
      (if found
       then [EvLog DEBUG [Lit "Cleaning up file: "; Lit p]; EvRemove p r]
       else [])
  else [].

(** How a call that can raise ended. *)
Definition raised {X} (r : exn + X) : bool :=
  match r with inl _ => true | inr _ => false end.

(** The status message as the chat shows it.  The first [reply_text] of a
    job creates it, unless the call raises; an edit that returns replaces
    its text; an edit that raises was refused and leaves it as it was. *)
Inductive status :=
| NotPosted
| NoStatus
| Status (m : message) (t : string).

Definition status_step (st : status) (e : event) : status :=
  match e, st with
  | EvReplyText t (inr m), NotPosted => Status m t
  | EvReplyText _ (inl _), NotPosted => NoStatus
  | EvEditMessageText c i t (inr _), Status m old =>
      if (c =? chat_id m)%Z && (i =? message_id m)%Z then Status m t else st
  | _, _ => st
  end.

Definition status_after (tr : list event) : status :=
  fold_left status_step tr NotPosted.

Definition status_text (tr : list event) : option string :=
  match status_after tr with
  | Status _ t => Some t
  | _ => None
  end.

(** The messages the job's text posts created. *)
Definition messages_created (tr : list event) : list message :=
  flat_map (fun e => match e with
                     | EvReplyText _ (inr m) => [m]
                     | _ => []
                     end) tr.

(** [t] contains [name]. *)
Definition mentions (t name : string) : Prop :=
  exists pre post, t = (pre ++ name ++ post)%string.

(** The fetcher raised before it gave a path. *)
Definition fetcher_raised (url : pyval) (tr : list event) : Prop :=
  exists e, In (EvYoutubeDL YDL_OPTS (inl e)) tr \/
            In (EvExtractInfo url (inl e)) tr \/
            exists i, In (EvPrepareFilename i (inl e)) tr.

(** The exception of a removal that raised, if there is one. *)
Fixpoint failed_removal (tr : list event) : option exn :=
  match tr with
  | [] => None
  | EvRemove _ (inl e) :: _ => Some e
  | _ :: tr' => failed_removal tr'
  end.

(** Which call an event records. *)
Definition kind (e : event) : nat :=
  match e with
  | EvLog _ _ => 0
  | EvReplyText _ _ => 1
  | EvMakedirs _ _ => 2
  | EvYoutubeDL _ _ => 3
  | EvExtractInfo _ _ => 4
  | EvPrepareFilename _ _ => 5
  | EvYoutubeDLExit _ => 6
  | EvEditMessageText _ _ _ _ => 7
  | EvOpen _ _ => 8
  | EvReplyVideo _ _ _ => 9
  | EvReplyPhoto _ _ _ => 10
  | EvClose _ _ => 11
  | EvPathExists _ _ => 12
  | EvRemove _ _ => 13
  end.

Definition same_kind (e1 e2 : event) : bool := Nat.eqb (kind e1) (kind e2).

(** ** Observations on a message *)

(** The log line [handle_message] writes before it hands a link over. *)
Definition url_log (platform : string) (url : pyval) : event :=
  EvLog DEBUG [Lit "Processing URL: "; Fmt url; Lit " from "; Lit platform].

(** The body of the two loops of [handle_message], over a list of pairs. *)
Definition jobs (links : list (string * pyval)) : M unit unit :=
  for_ links (fun link =>
    logger_debug [Lit "Processing URL: "; Fmt (snd link); Lit " from ";
                  Lit (fst link)] ;;;
    process_url (snd link) (fst link)).

(** ** Some worlds *)

(** A world that answers by a fixed script: what a text post returns, what
    [extract_info] returns, the path [prepare_filename] gives, what an edit
    returns, whether the file is there at cleanup and what [os.remove]
    returns.  Everything else succeeds. *)
Definition scripted (reply : string -> exn + message) (fetch : exn + info)
           (path : string) (edit : string -> exn + unit) (found : bool)
           (rm : exn + unit) : world := {|
  w_reply_text := fun _ t => reply t;
  w_makedirs := fun _ _ => inr tt;
  w_YoutubeDL := fun _ _ => inr tt;
  w_extract_info := fun _ _ => fetch;
  w_prepare_filename := fun _ _ => inr path;
  w_YoutubeDL_exit := fun _ => inr tt;
  w_edit_message_text := fun _ _ _ t => edit t;
  w_open := fun _ _ => inr tt;
  w_reply_video := fun _ _ _ => inr tt;
  w_reply_photo := fun _ _ _ => inr tt;
  w_close := fun _ _ => inr tt;
  w_path_exists := fun _ _ => found;
  w_remove := fun _ _ => rm
|}.

Definition posted : exn + message := inr {| chat_id := 42; message_id := 7 |}.
Definition fetched : exn + info := inr [("id", "987"); ("ext", "mp4")].
Definition network_error : exn := Exception "Network is unreachable".
Definition not_editable : exn := Exception "Message can't be edited".
Definition timed_out : exn := Exception "Timed out".
Definition permission_denied : exn := Exception "Permission denied".

(** What [handle_message] hands over for a tiktok link. *)
Definition www : pyval := PyStr (str "www.").

(** Everything works; the fetcher gives a video. *)
Definition w_ok : world :=
  scripted (fun _ => posted) fetched "downloads/987.mp4"
           (fun _ => inr tt) true (inr tt).

(** The file is not there any more when the cleanup looks for it. *)
Definition w_file_gone : world :=
  scripted (fun _ => posted) fetched "downloads/987.mp4"
           (fun _ => inr tt) false (inr tt).

(** [os.remove] raises. *)
Definition w_remove_fails : world :=
  scripted (fun _ => posted) fetched "downloads/987.mp4"
           (fun _ => inr tt) true (inl permission_denied).

(** The fetcher raises and the chat refuses every edit. *)
Definition w_fetch_and_edit_fail : world :=
  scripted (fun _ => posted) (inl network_error) "downloads/987.mp4"
           (fun _ => inl not_editable) true (inr tt).

(** As above, and the chat also refuses the error reply. *)
Definition w_report_fails : world :=
  scripted (fun t => if prefix "Error" t then inl timed_out else posted)
           (inl network_error) "downloads/987.mp4"
           (fun _ => inl not_editable) true (inr tt).

(** No text post goes through. *)
Definition w_chat_down : world :=
  scripted (fun _ => inl timed_out) fetched "downloads/987.mp4"
           (fun _ => inr tt) true (inr tt).

(** The fetcher gives a file of unknown type; the chat refuses every edit. *)
Definition w_unknown_type_edit_fails : world :=
  scripted (fun _ => posted) (inr [("id", "987"); ("ext", "bin")])
           "downloads/987.bin"
           (fun _ => inl not_editable) true (inr tt).

(** The fetcher gives a file of unknown type; everything works. *)
Definition w_unknown_type : world :=
  scripted (fun _ => posted) (inr [("id", "987"); ("ext", "bin")])
           "downloads/987.bin"
           (fun _ => inr tt) true (inr tt).

(** ** Lengths of matches and of captures *)

(** The fewest characters a match of [r] consumes. *)
Fixpoint min_len (r : regex) : nat :=
  match r with
  | Eps => 0
  | Chr _ | NotChr _ | Digit => 1
  | Seq r1 r2 => min_len r1 + min_len r2
  | Alt r1 r2 => Nat.min (min_len r1) (min_len r2)
  | Opt _ => 0
  | Plus r1 => min_len r1
  | Group _ r1 => min_len r1
  end.

Definition option_add (a b : option nat) : option nat :=
  match a, b with
  | Some x, Some y => Some (x + y)
  | _, _ => None
  end.

Definition option_max (a b : option nat) : option nat :=
  match a, b with
  | Some x, Some y => Some (Nat.max x y)
  | _, _ => None
  end.

(** The most characters a match of [r] consumes, when there is a bound. *)
Fixpoint max_len (r : regex) : option nat :=
  match r with
  | Eps => Some 0
  | Chr _ | NotChr _ | Digit => Some 1
  | Seq r1 r2 => option_add (max_len r1) (max_len r2)
  | Alt r1 r2 => option_max (max_len r1) (max_len r2)
  | Opt r1 => max_len r1
  | Plus _ => None
  | Group _ r1 => max_len r1
  end.

(** Every group of [r] captures at most [B] characters. *)
Fixpoint captures_within (B : nat) (r : regex) : bool :=
  match r with
  | Eps | Chr _ | NotChr _ | Digit => true
  | Seq r1 r2 | Alt r1 r2 => captures_within B r1 && captures_within B r2
  | Opt r1 | Plus r1 => captures_within B r1
  | Group _ r1 =>
      match max_len r1 with
      | Some n => (n <=? B) && captures_within B r1
      | None => false
      end
  end.

(** Groups whose captures all have at most [B] characters. *)
Definition short_groups (B : nat) (g : groups) : Prop :=
  Forall (fun b : nat * text => length (snd b) <= B) g.

(** A value made of strings of at most [B] characters. *)
Definition short_value (B : nat) (v : pyval) : Prop :=
  match v with
  | PyStr s => length s <= B
  | PyTuple items => Forall (fun s => length s <= B) items
  end.

(** A matching step that consumes between [lo] and [hi] characters and
    keeps the captures short. *)
Definition bounded_step (A : Type) (B lo : nat) (hi : option nat)
           (step : text -> groups -> Re.cont A -> option A) : Prop :=
  forall s g k x, short_groups B g -> step s g k = Some x ->
    exists s' g',
      suffix_of s' s /\ short_groups B g' /\ k s' g' = Some x /\
      lo + length s' <= length s /\
      (forall n, hi = Some n -> length s <= n + length s').

(** The length of the shortest link a pattern of the table can match. *)
Definition shortest_link : nat := 23.

(** The text a match covers. *)
Definition matched (subject : text) (m : Re.occurrence) : text :=
  Re.slice subject (Re.m_start m) (Re.m_end m).

(** What the patterns of the table have in common: they compile, their
    groups capture at most 11 characters, their matches have at least 23;
    every pattern but the one of tumblr has a group, and the one of tumblr
    has none and needs 26 characters. *)
Definition table_entry_shape (entry : string * string) : Prop :=
  exists r,
    Re.compile (snd entry) = Some r /\
    captures_within 11 r = true /\
    shortest_link <= min_len r /\
    (fst entry <> "tumblr" -> 1 <= ngroups r) /\
    (fst entry = "tumblr" -> ngroups r = 0 /\ min_len r = 26).

(** A Unicode database with nothing above code point 127. *)
Definition ascii_db : unicode_db :=
  {| uni_digit := fun _ => false; uni_ignorecase := fun _ _ => false |}.

(** ** Letter case *)

(** Two characters that are the same, or the same ASCII letter in two
    cases. *)
Definition same_letter (a b : char) : bool :=
  (a =? b)%N ||
  ((a <? 128)%N && (b <? 128)%N && (Re.lower_code a =? Re.lower_code b)%N).

(** Two texts that differ by the case of ASCII letters at most. *)
Definition same_text : text -> text -> Prop :=
  Forall2 (fun a b => same_letter a b = true).

Definition same_groups : groups -> groups -> Prop :=
  Forall2 (fun x y : nat * text => fst x = fst y /\ same_text (snd x) (snd y)).

Definition same_value (u v : pyval) : Prop :=
  match u, v with
  | PyStr s, PyStr s' => same_text s s'
  | PyTuple l, PyTuple l' => Forall2 same_text l l'
  | _, _ => False
  end.

(** Two matches at the same place, with the same groups up to case. *)
Definition same_occurrence (m m' : Re.occurrence) : Prop :=
  Re.m_start m = Re.m_start m' /\ Re.m_end m = Re.m_end m' /\
  same_groups (Re.m_groups m) (Re.m_groups m').

Definition is_ascii_letter (c : char) : bool :=
  ((65 <=? c) && (c <=? 90) || (97 <=? c) && (c <=? 122))%N.

(** The literals of the pattern are ASCII and no negated character is a
    letter. *)
Fixpoint ascii_pattern (r : regex) : bool :=
  match r with
  | Eps | Digit => true
  | Chr c => (c <? 128)%N
  | NotChr c => negb (is_ascii_letter c)
  | Seq r1 r2 | Alt r1 r2 => ascii_pattern r1 && ascii_pattern r2
  | Opt r1 | Plus r1 | Group _ r1 => ascii_pattern r1
  end.

(** Two ends of a match attempt that agree. *)
Definition same_end (x y : text * groups) : Prop :=
  same_text (fst x) (fst y) /\ same_groups (snd x) (snd y).

(** Two results of a search that agree. *)
Definition same_span (x y : text * text * groups) : Prop :=
  same_text (fst (fst x)) (fst (fst y)) /\
  same_text (snd (fst x)) (snd (fst y)) /\
  same_groups (snd x) (snd y).

(** Results of the matcher that agree: both fail, or both succeed with
    related values. *)
Definition both {A} (R : A -> A -> Prop) (x y : option A) : Prop :=
  match x, y with
  | Some a, Some b => R a b
  | None, None => True
  | _, _ => False
  end.

(** Two continuations that agree on texts and groups that agree. *)
Definition same_cont {A} (R : A -> A -> Prop) (k k' : Re.cont A) : Prop :=
  forall s s' g g', same_text s s' -> same_groups g g' ->
    both R (k s g) (k' s' g').

Definition same_step {A} (R : A -> A -> Prop)
           (step : text -> groups -> Re.cont A -> option A) : Prop :=
  forall s s' g g' k k', same_text s s' -> same_groups g g' ->
    same_cont R k k' -> both R (step s g k) (step s' g' k').

(** ** More observations on the events of a job *)

(** Whether the call an event records raised. *)
Definition event_raised (e : event) : bool :=
  match e with
  | EvLog _ _ => false
  | EvReplyText _ r => raised r
  | EvMakedirs _ r => raised r
  | EvYoutubeDL _ r => raised r
  | EvExtractInfo _ r => raised r
  | EvPrepareFilename _ r => raised r
  | EvYoutubeDLExit r => raised r
  | EvEditMessageText _ _ _ r => raised r
  | EvOpen _ r => raised r
  | EvReplyVideo _ _ r => raised r
  | EvReplyPhoto _ _ r => raised r
  | EvClose _ r => raised r
  | EvPathExists _ _ => false
  | EvRemove _ r => raised r
  end.

(** No call of the run raised. *)
Definition smooth (tr : list event) : bool := negb (existsb event_raised tr).

(** The path [prepare_filename] gave, if it gave one. *)
Fixpoint obtained_path (tr : list event) : option string :=
  match tr with
  | [] => None
  | EvPrepareFilename _ (inr p) :: _ => Some p
  | _ :: tr' => obtained_path tr'
  end.

Definition is_open (e : event) : bool :=
  match e with EvOpen _ _ => true | _ => false end.

Definition is_fetch (e : event) : bool :=
  match e with
  | EvMakedirs _ _ | EvYoutubeDL _ _ | EvExtractInfo _ _
  | EvPrepareFilename _ _ | EvYoutubeDLExit _ => true
  | _ => false
  end.

(** The exception of the call an event records, when it raised. *)
Definition event_exn (e : event) : option exn :=
  match e with
  | EvReplyText _ (inl x) | EvMakedirs _ (inl x) | EvYoutubeDL _ (inl x)
  | EvExtractInfo _ (inl x) | EvPrepareFilename _ (inl x)
  | EvYoutubeDLExit (inl x) | EvEditMessageText _ _ _ (inl x)
  | EvOpen _ (inl x) | EvReplyVideo _ _ (inl x) | EvReplyPhoto _ _ (inl x)
  | EvClose _ (inl x) | EvRemove _ (inl x) => Some x
  | _ => None
  end.

(** The last event of a call that raised. *)
Fixpoint last_raising (tr : list event) : option event :=
  match tr with
  | [] => None
  | ev :: tr' =>
      match last_raising tr' with
      | Some x => Some x
      | None => if event_raised ev then Some ev else None
      end
  end.

(** The exception of the last call that raised. *)
Definition last_raised (tr : list event) : option exn :=
  match last_raising tr with
  | Some ev => event_exn ev
  | None => None
  end.

(** The text an event shows in the chat. *)
Definition text_posted (e : event) : option string :=
  match e with
  | EvReplyText t _ | EvEditMessageText _ _ t _ => Some t
  | _ => None
  end.

(** The line the [except] block of a job logs first. *)
Definition error_log (url : pyval) (e : exn) : event :=
  EvLog ERROR [Lit "Error processing "; Fmt url; Lit ": "; FmtExn e].

(** [s.startswith(p)] *)
Fixpoint startswith (s p : string) {struct p} : bool :=
  match p, s with
  | EmptyString, _ => true
  | String a p', String b s' => Ascii.eqb a b && startswith s' p'
  | String _ _, EmptyString => false
  end.

(** A post of a Processing text. *)
Definition is_processing_post (e : event) : bool :=
  match e with
  | EvReplyText t _ => startswith t "Processing media from "
  | _ => false
  end.

(** Everything works; the fetcher gives a photo. *)
Definition w_photo : world :=
  scripted (fun _ => posted) (inr [("id", "987"); ("ext", "jpg")])
           "downloads/987.jpg" (fun _ => inr tt) true (inr tt).

(** Everything works but the last edit of the status message. *)
Definition w_last_edit_fails : world :=
  scripted (fun _ => posted) fetched "downloads/987.mp4"
           (fun t => if startswith t "Video sent" then inl not_editable
                     else inr tt)
           true (inr tt).

(** ** A whole job, and jobs one after the other *)

(** The texts that end a job in the chat: a success text, the unsupported
    text or the error text. *)
Definition terminal_texts (platform : string) (fp : option string)
  : list string :=
  [ "Video sent successfully!"; "Photo sent successfully!";
    unsupported_text platform; error_message fp platform ].

(** The events of the [finally] block of a job that obtained [fp]. *)
Definition cleanup_of (fp : option string) (found : bool) (r : exn + unit)
  : list event :=
  match fp with
  | Some p => cleanup_trace p found r
  | None => []
  end.

(** A whole run of the pipeline for [url] and [platform].  It starts with
    its first log line and the Processing post.  It reaches a terminal
    report, the last text it posts or edits, which is a success text, the
    unsupported text or the error text.  It ends, right after that report,
    with the cleanup for the path the fetcher gave: the existence test and,
    when the file is there, the removal.  Nothing before the cleanup tests
    for a file or removes one. *)
Definition whole_job (url : pyval) (platform : string) (job : list event)
  : Prop :=
  (exists r rest,
     job = EvLog DEBUG [Lit "Starting processing for "; Fmt url]
             :: EvReplyText (processing_text platform) r :: rest) /\
  (exists body report found r,
     job = body ++ report :: cleanup_of (obtained_path job) found r /\
     (exists t, text_posted report = Some t /\
                In t (terminal_texts platform (obtained_path job))) /\
     Forall (fun e => is_remove e = false /\ is_path_exists e = false) body).

(** [sequential w h links tr r]: after the history [h], the events [tr]
    are those of the jobs of [links] one after the other.  Each job is
    announced by the log line of [handle_message] and is there whole, from
    its first log line through its terminal report to the end of its
    cleanup, before the next one is announced; the sequence stops at the
    first job an exception escapes from; [r] is how it ends. *)
Inductive sequential (w : world)
  : list event -> list (string * pyval) -> list event -> result unit -> Prop :=
| seq_done h : sequential w h [] [] (Ret tt)
| seq_next h platform url links tr r :
    let job := job_events w (h ++ [url_log platform url]) url platform in
    whole_job url platform job ->
    job_outcome w (h ++ [url_log platform url]) url platform = Ret tt ->
    sequential w (h ++ url_log platform url :: job) links tr r ->
    sequential w h ((platform, url) :: links)
               (url_log platform url :: job ++ tr) r
| seq_stop h platform url links e :
    let job := job_events w (h ++ [url_log platform url]) url platform in
    whole_job url platform job ->
    job_outcome w (h ++ [url_log platform url]) url platform = Exc e ->
    sequential w h ((platform, url) :: links)
               (url_log platform url :: job) (Exc e).

(** ** The error hook *)

(** An update as the handlers see it: what [str(update)] gives, and the
    text of [update.message] when there is a message ([None] inside when the
    message has no text). *)
Record update := {
  update_repr : string;
  update_message : option (option text)
}.

(** [error_handler]; [u] is [None] when the error comes without update. *)
Definition error_handler {S} (u : option update) (error : exn) : M S unit :=
  logger_error [Lit "Update ";
                Lit (match u with Some x => update_repr x | None => "None" end);
                Lit " caused error "; FmtExn error] ;;;
  match u with
  | Some {| update_message := Some _ |} =>
      _ <- reply_text "An error occurred. Please try again later." ;; ret tt
  | _ => ret tt
  end.

(** Raising an exception. *)
Definition raise {S A} (e : exn) : M S A := fun _ _ s => (Exc e, s, []).

(** What [update.message.text] raises when [update.message] is [None]. *)
Definition no_message_error : exn :=
  Exception "'NoneType' object has no attribute 'text'".

(** [handle_message] from the update: its first line reads
    [update.message.text]. *)
Definition handle_message_of (U : unicode_db) (u : update) : M unit unit :=
  match update_message u with
  | Some message_text => handle_message U message_text
  | None => raise no_message_error
  end.

Definition generic_notice : string :=
  "An error occurred. Please try again later.".

(** The line the error hook logs for the update [u] and the error [e]. *)
Definition hook_log (u : update) (e : exn) : event :=
  EvLog ERROR [Lit "Update "; Lit (update_repr u); Lit " caused error ";
               FmtExn e].

(** An update whose message holds a tumblr link. *)
Definition tumblr_update : update :=
  {| update_repr := "Update(update_id=1)";
     update_message := Some (Some (str "see http://blog.tumblr.com/post/123 !")) |}.

(** * Properties *)

(** ** The matcher *)

Lemma suffix_of_refl s : suffix_of s s.
Proof. now exists []. Qed.

Lemma suffix_of_trans s1 s2 s3 :
  suffix_of s1 s2 -> suffix_of s2 s3 -> suffix_of s1 s3.
Proof.
  intros [p ->] [q ->]. exists (q ++ p). now rewrite app_assoc.
Qed.

Lemma suffix_of_cons t s' s : suffix_of s' s -> suffix_of s' (t :: s).
Proof. intros [p ->]. now exists (t :: p). Qed.

Lemma suffix_of_length s' s : suffix_of s' s -> length s' <= length s.
Proof. intros [p ->]. rewrite length_app. lia. Qed.

Section MatcherFacts.

Variable U : unicode_db.
Variable A : Type.

Lemma plus_loop_suffix step k :
  reaches_suffix A step ->
  forall n s g x, Re.plus_loop A step k n s g = Some x ->
    exists s' g', suffix_of s' s /\ k s' g' = Some x.
Proof.
  intros Hstep. induction n as [|n IH]; intros s g x H; [discriminate|].
  change (step s g (fun s' g' =>
            if length s' <? length s then
              match Re.plus_loop A step k n s' g' with
              | Some y => Some y
              | None => k s' g'
              end
            else k s' g') = Some x) in H.
  apply Hstep in H. destruct H as (s1 & g1 & Hs1 & H).
  destruct (length s1 <? length s).
  - destruct (Re.plus_loop A step k n s1 g1) eqn:E.
    + injection H as ->. apply IH in E. destruct E as (s2 & g2 & Hs2 & E).
      exists s2, g2. split; [eapply suffix_of_trans; eassumption | exact E].
    + now exists s1, g1.
  - now exists s1, g1.
Qed.

Lemma rmatch_suffix r : reaches_suffix A (Re.rmatch U A r).
Proof.
  induction r; intros s g k x H; cbn [Re.rmatch] in H.
  - exists s, g. split; [apply suffix_of_refl | exact H].
  - destruct s as [|t s]; [discriminate|].
    destruct (Re.chr_ignorecase U c t); [|discriminate].
    exists s, g. split; [apply suffix_of_cons, suffix_of_refl | exact H].
  - destruct s as [|t s]; [discriminate|].
    destruct (negb (t =? c)%N); [|discriminate].
    exists s, g. split; [apply suffix_of_cons, suffix_of_refl | exact H].
  - destruct s as [|t s]; [discriminate|].
    destruct (Re.is_digit U t); [|discriminate].
    exists s, g. split; [apply suffix_of_cons, suffix_of_refl | exact H].
  - apply IHr1 in H. destruct H as (s1 & g1 & Hs1 & H).
    apply IHr2 in H. destruct H as (s2 & g2 & Hs2 & H).
    exists s2, g2. split; [eapply suffix_of_trans; eassumption | exact H].
  - destruct (Re.rmatch U A r1 s g k) eqn:E.
    + injection H as ->. now apply IHr1 in E.
    + now apply IHr2 in H.
  - destruct (Re.rmatch U A r s g k) eqn:E.
    + injection H as ->. now apply IHr in E.
    + exists s, g. split; [apply suffix_of_refl | exact H].
  - eapply plus_loop_suffix; eassumption.
  - apply IHr in H. destruct H as (s1 & g1 & Hs1 & H).
    now exists s1, (((i, firstn (length s - length s1) s)) :: g1).
Qed.

End MatcherFacts.

(** A match [search] finds starts at or after the point the search starts
    from and ends at or after its own start; with [must_advance] it is not
    the empty match at the starting point. *)
Lemma search_span U r : forall s must_advance b e g,
  Re.search U r s must_advance = Some (b, e, g) ->
  suffix_of b s /\ suffix_of e b /\
  (must_advance = true -> length b = length s -> length e < length b).
Proof.
  induction s as [|t s IH]; intros ma b e g H; cbn in H.
  - destruct (Re.rmatch U _ r [] [] (Re.accept ma [])) as [[e' g']|] eqn:E;
      [|discriminate].
    injection H as <- <- <-.
    apply rmatch_suffix in E. destruct E as (s1 & g1 & Hs1 & E).
    unfold Re.accept in E.
    match type of E with (if ?c then _ else _) = _ => destruct c eqn:C end;
      [discriminate|].
    injection E as -> ->.
    split; [apply suffix_of_refl|]. split; [exact Hs1|].
    intros -> _. cbn in C. apply Nat.eqb_neq in C.
    apply suffix_of_length in Hs1. cbn in *. lia.
  - destruct (Re.rmatch U _ r (t :: s) [] (Re.accept ma (t :: s)))
      as [[e' g']|] eqn:E.
    + injection H as <- <- <-.
      apply rmatch_suffix in E. destruct E as (s1 & g1 & Hs1 & E).
      unfold Re.accept in E.
      match type of E with (if ?c then _ else _) = _ => destruct c eqn:C end;
        [discriminate|].
      injection E as -> ->.
      split; [apply suffix_of_refl|]. split; [exact Hs1|].
      intros -> _. cbn [andb] in C. apply Nat.eqb_neq in C.
      apply suffix_of_length in Hs1. lia.
    + apply IH in H. destruct H as (Hb & He & _).
      split; [now apply suffix_of_cons|]. split; [exact He|].
      intros _ Hlen. apply suffix_of_length in Hb. cbn in Hlen. lia.
Qed.

(** The scan goes left to right: every match lies after the point the scan
    is at, and each one ends before the next starts. *)
Lemma scan_loop_left_to_right U r n : forall fuel s must_advance,
  length s <= n ->
  Forall (within n (n - length s)) (Re.scan_loop U fuel r n s must_advance) /\
  StronglySorted ends_before (Re.scan_loop U fuel r n s must_advance).
Proof.
  induction fuel as [|fuel IH]; intros s ma Hn; cbn.
  - split; constructor.
  - destruct (Re.search U r s ma) as [[[b e] g]|] eqn:E; [|split; constructor].
    apply search_span in E. destruct E as (Hb & He & _).
    apply suffix_of_length in Hb, He.
    destruct (IH e (length e =? length b)) as [Hin Hsorted]; [lia|].
    split.
    + constructor; [unfold within; cbn; lia|].
      eapply Forall_impl; [|exact Hin].
      intros m (H1 & H2 & H3). unfold within. lia.
    + constructor; [exact Hsorted|].
      eapply Forall_impl; [|exact Hin].
      intros m (H1 & H2 & H3). unfold ends_before. cbn. lia.
Qed.

Lemma occurrences_left_to_right U r subject :
  StronglySorted ends_before (Re.occurrences U r subject).
Proof. apply scan_loop_left_to_right. lia. Qed.

(** *** The two loops of the matcher stop before their fuel runs out *)

Section Fuel.

Variable U : unicode_db.
Variable A : Type.

Lemma plus_loop_agree step : local A step ->
  forall n s g k1 k2, agree A (length s) k1 k2 ->
    Re.plus_loop A step k1 n s g = Re.plus_loop A step k2 n s g.
Proof.
  intros Hstep. induction n as [|n IH]; intros s g k1 k2 Hk; [reflexivity|].
  cbn [Re.plus_loop]. apply Hstep. intros s' g' Hs'.
  destruct (length s' <? length s) eqn:C.
  - rewrite (IH s' g' k1 k2); [now rewrite Hk|].
    intros s2 g2 Hs2. apply Hk. lia.
  - now apply Hk.
Qed.

Lemma rmatch_local r : local A (Re.rmatch U A r).
Proof.
  induction r; intros s g k1 k2 Hk; cbn [Re.rmatch].
  - now apply Hk.
  - destruct s as [|t s]; [reflexivity|].
    destruct (Re.chr_ignorecase U c t); [|reflexivity]. apply Hk. cbn. lia.
  - destruct s as [|t s]; [reflexivity|].
    destruct (negb (t =? c)%N); [|reflexivity]. apply Hk. cbn. lia.
  - destruct s as [|t s]; [reflexivity|].
    destruct (Re.is_digit U t); [|reflexivity]. apply Hk. cbn. lia.
  - apply IHr1. intros s' g' Hs'. apply IHr2.
    intros s2 g2 Hs2. apply Hk. lia.
  - rewrite (IHr1 s g k1 k2 Hk), (IHr2 s g k1 k2 Hk). reflexivity.
  - rewrite (IHr s g k1 k2 Hk), (Hk s g (le_n _)). reflexivity.
  - now apply plus_loop_agree.
  - apply IHr. intros s' g' Hs'. now apply Hk.
Qed.

(** More rounds than [S (length s)] change nothing. *)
Lemma plus_loop_fuel step k : local A step ->
  forall n1 n2 s g, length s < n1 -> length s < n2 ->
    Re.plus_loop A step k n1 s g = Re.plus_loop A step k n2 s g.
Proof.
  intros Hstep. induction n1 as [|n1 IH]; intros n2 s g H1 H2; [lia|].
  destruct n2 as [|n2]; [lia|].
  cbn [Re.plus_loop]. apply Hstep. intros s' g' Hs'.
  destruct (length s' <? length s) eqn:C; [|reflexivity].
  apply Nat.ltb_lt in C. rewrite (IH n2 s' g'); [reflexivity | lia | lia].
Qed.

End Fuel.

(** The scan of [findall] stops by itself: any larger amount of fuel gives
    the same matches. *)
Lemma scan_loop_fuel U r n : forall fuel1 fuel2 s must_advance,
  Re.scan_fuel s must_advance <= fuel1 ->
  Re.scan_fuel s must_advance <= fuel2 ->
  Re.scan_loop U fuel1 r n s must_advance
  = Re.scan_loop U fuel2 r n s must_advance.
Proof.
  induction fuel1 as [|fuel1 IH]; intros fuel2 s ma H1 H2.
  - unfold Re.scan_fuel in H1. destruct ma; lia.
  - destruct fuel2 as [|fuel2]; [unfold Re.scan_fuel in H2; destruct ma; lia|].
    cbn [Re.scan_loop].
    destruct (Re.search U r s ma) as [[[b e] g]|] eqn:E; [|reflexivity].
    apply search_span in E. destruct E as (Hb & He & Hadv).
    apply suffix_of_length in Hb, He.
    assert (Hless : Re.scan_fuel e (length e =? length b)
                    < Re.scan_fuel s ma).
    { unfold Re.scan_fuel.
      destruct (length e =? length b) eqn:C;
        [apply Nat.eqb_eq in C | apply Nat.eqb_neq in C];
        destruct ma; lia. }
    f_equal. apply IH; lia.
Qed.

Lemma occurrences_fuel U r subject fuel :
  Re.scan_fuel subject false <= fuel ->
  Re.scan_loop U fuel r (length subject) subject false
  = Re.occurrences U r subject.
Proof. intros H. unfold Re.occurrences. now apply scan_loop_fuel. Qed.

(** *** The pairs [handle_message] goes through *)

Lemma StronglySorted_app {X} (R : X -> X -> Prop) (l1 l2 : list X) :
  StronglySorted R l1 -> StronglySorted R l2 ->
  (forall a b, In a l1 -> In b l2 -> R a b) ->
  StronglySorted R (l1 ++ l2).
Proof.
  induction l1 as [|a l1 IH]; intros H1 H2 H12; cbn; [exact H2|].
  apply StronglySorted_inv in H1. destruct H1 as [H1 Ha].
  constructor.
  - apply IH; [exact H1 | exact H2 | intros; apply H12; [now right | assumption]].
  - apply Forall_app. split; [exact Ha|].
    apply Forall_forall. intros b Hb. apply H12; [now left | exact Hb].
Qed.

Lemma finditer_left_to_right U pattern subject :
  StronglySorted ends_before (Re.finditer U pattern subject).
Proof.
  unfold Re.finditer. destruct (Re.compile pattern);
    [apply occurrences_left_to_right | constructor].
Qed.

(** The items of [findall] are the items of the matches, in their order. *)
Lemma findall_items U (platform : string) pattern t :
  match Re.findall U pattern t with
  | inr urls => map (fun url => (platform, url)) urls
  | inl _ => []
  end
  = map (fun m => (platform, Re.item pattern t m)) (Re.finditer U pattern t).
Proof.
  unfold Re.findall, Re.finditer, Re.item.
  destruct (Re.compile pattern); [now rewrite map_map | reflexivity].
Qed.

(** Every pattern of the table compiles. *)
Lemma platforms_compile :
  Forall (fun entry : string * string =>
            exists r, Re.compile (snd entry) = Some r) PLATFORMS.
Proof. repeat constructor; eexists; vm_compute; reflexivity. Qed.

Lemma ranked_occurrences_sorted U (i : nat) r t :
  StronglySorted scanned_before (map (fun m => (i, m)) (Re.finditer U r t)).
Proof.
  pose proof (finditer_left_to_right U r t) as H.
  induction H as [|m l Hl IH Hm]; cbn; constructor; [exact IH|].
  apply Forall_forall. intros [j m'] Hin.
  apply in_map_iff in Hin. destruct Hin as (m2 & [= <- <-] & Hin).
  right. split; [reflexivity|].
  rewrite Forall_forall in Hm. now apply Hm.
Qed.

Lemma ranked_occurrences_rank U (i : nat) r t o :
  In o (map (fun m => (i, m)) (Re.finditer U r t)) -> fst o = i.
Proof.
  intros H. apply in_map_iff in H. now destruct H as (m & <- & _).
Qed.

(** C9.  For every text, the pairs come out platform by platform in the
    declared order tiktok, instagram, twitter, tumblr, and within a platform
    in the left-to-right order of the matches in the text: the pairs are the
    images of the occurrences, and the occurrences are sorted by platform
    rank first and by position in the text second. *)
Theorem link_matcher_scan_order (U : unicode_db) (message_text : text) :
  map fst PLATFORMS = ["tiktok"; "instagram"; "twitter"; "tumblr"]%string /\
  link_matcher U message_text
    = map (link_of message_text) (link_occurrences U message_text) /\
  StronglySorted scanned_before (link_occurrences U message_text).
Proof.
  split; [reflexivity|]. split.
  - unfold link_matcher, link_occurrences.
    cbn [flat_map PLATFORMS length seq nth snd].
    rewrite !findall_items, !map_app, !map_map, !app_nil_r. reflexivity.
  - unfold link_occurrences.
    cbn [flat_map PLATFORMS length seq nth snd]. rewrite app_nil_r.
    repeat (apply StronglySorted_app;
            [apply ranked_occurrences_sorted | | ]);
      try apply ranked_occurrences_sorted.
    all: intros a b Ha Hb; left;
      repeat (apply in_app_or in Hb; destruct Hb as [Hb|Hb]);
      apply ranked_occurrences_rank in Ha, Hb; lia.
Qed.

(** The patterns of the table, as the parser reads them. *)
Example tiktok_compiles :
  Re.compile "https?://(www\.)?tiktok\.com/@[^/]+/video/\d+"
  = Some (cat (chars "http" ++ [Opt (Chr (code "s"))] ++ chars "://"
               ++ [Opt (Group 1 (cat (chars "www.")))]
               ++ chars "tiktok.com/@" ++ [Plus (NotChr (code "/"))]
               ++ chars "/video/" ++ [Plus Digit])).
Proof. reflexivity. Qed.

Example instagram_compiles :
  Re.compile "https?://(www\.)?instagram\.com/(p|reel)/[^/]+/"
  = Some (cat (chars "http" ++ [Opt (Chr (code "s"))] ++ chars "://"
               ++ [Opt (Group 1 (cat (chars "www.")))]
               ++ chars "instagram.com/"
               ++ [Group 2 (Alt (cat (chars "p")) (cat (chars "reel")))]
               ++ chars "/" ++ [Plus (NotChr (code "/"))] ++ chars "/")).
Proof. reflexivity. Qed.

Example twitter_compiles :
  Re.compile "https?://(www\.)?(twitter\.com|x\.com)/[^/]+/status/\d+"
  = Some (cat (chars "http" ++ [Opt (Chr (code "s"))] ++ chars "://"
               ++ [Opt (Group 1 (cat (chars "www.")))]
               ++ [Group 2 (Alt (cat (chars "twitter.com"))
                                (cat (chars "x.com")))]
               ++ chars "/" ++ [Plus (NotChr (code "/"))]
               ++ chars "/status/" ++ [Plus Digit])).
Proof. reflexivity. Qed.

Example tumblr_compiles :
  Re.compile "https?://[^/]+\.tumblr\.com/post/\d+"
  = Some (cat (chars "http" ++ [Opt (Chr (code "s"))] ++ chars "://"
               ++ [Plus (NotChr (code "/"))]
               ++ chars ".tumblr.com/post/" ++ [Plus Digit])).
Proof. reflexivity. Qed.

(** C1.  On the scenario's text the scan reaches one pair, tagged tiktok,
    whose second component is what the only group of the pattern captured,
    the string www., and not the URL the claim expects. *)
Theorem link_matcher_tiktok_scenario (U : unicode_db) :
  link_matcher U
    (str "check this https://www.tiktok.com/@someuser/video/1234567890123456789")
  = [("tiktok"%string, PyStr (str "www."))].
Proof. vm_compute. reflexivity. Qed.

(** Without the optional www. the group takes no part in the match and the
    pair carries the empty string. *)
Example link_matcher_tiktok_bare (U : unicode_db) :
  link_matcher U (str "https://tiktok.com/@someuser/video/42")
  = [("tiktok"%string, PyStr [])].
Proof. vm_compute. reflexivity. Qed.

(** A pattern with two groups gives a tuple of the two captures. *)
Example link_matcher_instagram (U : unicode_db) :
  link_matcher U (str "https://www.instagram.com/reel/Cabc123/")
  = [("instagram"%string, PyTuple [str "www."; str "reel"])].
Proof. vm_compute. reflexivity. Qed.

Example link_matcher_twitter (U : unicode_db) :
  link_matcher U (str "https://x.com/someone/status/17")
  = [("twitter"%string, PyTuple [[]; str "x.com"])].
Proof. vm_compute. reflexivity. Qed.

(** The tumblr pattern has no group: there the pair carries the whole
    match, and matching is case-insensitive. *)
Example link_matcher_tumblr (U : unicode_db) :
  link_matcher U (str "see HTTP://Blog.Tumblr.com/post/123 !")
  = [("tumblr"%string, PyStr (str "HTTP://Blog.Tumblr.com/post/123"))].
Proof. vm_compute. reflexivity. Qed.

Example link_matcher_nothing (U : unicode_db) :
  link_matcher U (str "no link here: https://example.com/video/1") = [].
Proof. vm_compute. reflexivity. Qed.

(** ** One job *)

(** *** Texts *)

Lemma string_append_assoc (a b c : string) :
  ((a ++ b) ++ c = a ++ b ++ c)%string.
Proof. induction a as [|x a IH]; cbn; [reflexivity | now rewrite IH]. Qed.

Lemma error_message_mentions_platform fp platform :
  mentions (error_message fp platform) (capitalize platform).
Proof.
  exists ("Error sending " ++ error_kind fp ++ " from ")%string,
         ". Please try again or use a different link."%string.
  unfold error_message. now rewrite !string_append_assoc.
Qed.

Lemma processing_text_is_no_error fp platform :
  processing_text platform <> error_message fp platform.
Proof. unfold processing_text, error_message. cbn. discriminate. Qed.

(** The error text says video exactly when a path was obtained and it has
    a video extension. *)
Lemma error_kind_video fp :
  error_kind fp = "video"%string <->
  exists p, fp = Some p /\ endswith_any p video_suffixes = true.
Proof.
  unfold error_kind. split.
  - destruct fp as [p|]; [|discriminate].
    destruct (nonempty p), (endswith_any p video_suffixes) eqn:Hp;
      cbn [andb]; intros H; try discriminate H.
    now exists p.
  - intros (p & -> & Hp). rewrite Hp.
    destruct p; [discriminate Hp | reflexivity].
Qed.

Lemma error_kind_media fp :
  error_kind fp = "video"%string \/ error_kind fp = "media"%string.
Proof.
  unfold error_kind. destruct fp as [p|]; [|now right].
  destruct (nonempty p && endswith_any p video_suffixes); [now left | now right].
Qed.

(** *** Events *)

Lemma in_same_kind e tr : In e tr -> In e (filter (same_kind e) tr).
Proof.
  intros H. apply filter_In. split; [exact H|].
  unfold same_kind. apply Nat.eqb_refl.
Qed.

Lemma edit_event_inj c i t r c' i' t' r' :
  EvEditMessageText c i t r = EvEditMessageText c' i' t' r' ->
  c = c' /\ i = i' /\ t = t' /\ r = r'.
Proof. intros H. injection H. auto. Qed.

Lemma reply_event_inj (t : string) r t' r' :
  EvReplyText t r = EvReplyText t' r' -> t = t' /\ r = r'.
Proof. intros H. injection H. auto. Qed.

Lemma process_url_run w h url platform :
  @process_url unit url platform w h tt
  = (job_outcome w h url platform, tt, job_events w h url platform).
Proof.
  unfold job_outcome, job_events, process_url, call.
  now destruct (try_finally _ _ w h _) as [[r s] t].
Qed.

(** *** Case analysis on a run

    A run of [process_url] makes at most fifteen calls to the world; the
    proofs below go through every way they can end. *)

Ltac unfold_job :=
  unfold process_url, process_url_body, process_url_except, process_url_finally,
    with_, call, try_finally, try_except, bind,
    reply_text, makedirs, YoutubeDL, YoutubeDL_exit, extract_info,
    prepare_filename, edit_message_text, open_rb, close, reply_video,
    reply_photo, path_exists, remove, perform, logger_debug, logger_error,
    set_status_message, set_file_path, get, ret.

Ltac job_simpl := cbn [fst snd app status_message file_path chat_id message_id].

Ltac step :=
  match goal with
  | |- context [match ?x with inl _ => _ | inr _ => _ end] =>
      lazymatch type of x with
      | (_ + unit)%type => destruct x as [?|[]]
      | _ => destruct x
      end
  | |- context [if w_path_exists ?w ?h ?p then _ else _] =>
      destruct (w_path_exists w h p)
  | |- context [if ?b then _ else _] => destruct b eqn:?
  end; job_simpl.

Ltac job_analysis :=
  unfold job_events, job_outcome;
  match goal with
  | |- context [@process_url ?S ?u ?p ?w ?h ?s] =>
      let r := fresh "r" in
      let tr := fresh "tr" in
      let E := fresh "E" in
      destruct (@process_url S u p w h s) as [[r ?] tr] eqn:E;
      cbn [fst snd]; revert E; unfold_job; job_simpl; repeat step;
      intros E; injection E as <- <- <-
  end.

Ltac unfold_texts H :=
  unfold processing_text, sending_video_text, sending_photo_text,
    unsupported_text, error_message in H;
  cbn [String.append] in H.

(** Two texts of the job that differ from their first letters on. *)
Ltac text_clash :=
  match goal with
  | T : @eq string _ _ |- _ => solve [unfold_texts T; discriminate T]
  end.

Ltac intro_eqs := repeat match goal with |- _ = _ -> _ => intro end.

Ltac event_inj H :=
  lazymatch type of H with
  | EvEditMessageText _ _ _ _ = EvEditMessageText _ _ _ _ =>
      apply edit_event_inj in H; destruct H as (? & ? & ? & ?)
  | EvReplyText _ _ = EvReplyText _ _ =>
      apply reply_event_inj in H; destruct H as (? & ?)
  | _ => injection H; clear H; intro_eqs
  end;
  repeat match goal with
         | R : inl _ = inl _ |- _ => injection R; clear R; intro_eqs
         | R : inr _ = inr _ |- _ => injection R; clear R; intro_eqs
         | R : inl _ = inr _ |- _ => discriminate R
         | R : inr _ = inl _ |- _ => discriminate R
         end;
  subst.

Ltac in_event H :=
  first [ discriminate H
        | solve [event_inj H; text_clash]
        | event_inj H ].

(** Which event of the run a membership hypothesis is about. *)
Ltac in_cases H :=
  apply in_same_kind in H; cbn [filter same_kind kind Nat.eqb] in H;
  cbn [In] in H;
  repeat (destruct H as [H|H]; [in_event H|]);
  try (exact (False_ind _ H)).

Ltac in_list := cbn [In]; repeat (first [left; reflexivity | right]).

Ltac clash_bool :=
  match goal with
  | H1 : ?b = true, H2 : ?b = false |- _ => rewrite H1 in H2; discriminate H2
  end.

Ltac use_nonempty :=
  repeat match goal with
         | H : nonempty _ = _ |- _ => rewrite ?H; clear H
         end.

Ltac use_text :=
  repeat match goal with
         | T : @eq string _ _ |- _ => rewrite <- T; clear T
         end.

Ltac body_before_cleanup tr :=
  lazymatch tr with
  | EvPathExists _ _ :: _ => constr:(@nil event)
  | ?e :: ?tr' => let b := body_before_cleanup tr' in constr:(e :: b)
  | nil => constr:(@nil event)
  end.

(** Cut a run where its [finally] block starts; [unfold_cleanup] unfolds
    the description of that block. *)
Ltac split_cleanup unfold_cleanup :=
  lazymatch goal with
  | |- exists found r body, ?tr = _ /\ _ =>
      let b := body_before_cleanup tr in
      first
        [ exists false, (inr tt), b; unfold_cleanup;
          use_nonempty; cbn [app filter is_remove andb];
          split; [reflexivity|]; repeat split; repeat constructor
        | exists true; eexists; exists b; unfold_cleanup;
          use_nonempty; cbn [app filter is_remove andb];
          split; [reflexivity|]; repeat split; repeat constructor ]
  end.

Ltac all_but_last tr :=
  lazymatch tr with
  | [_] => constr:(@nil event)
  | ?e :: ?tr' => let b := all_but_last tr' in constr:(e :: b)
  end.

(** Cut a run at the error edit that raised. *)
Ltac at_failed_edit tr k :=
  lazymatch tr with
  | EvEditMessageText _ _ (error_message _ _) (inl _)
      :: EvLog ERROR _ :: EvReplyText _ ?r :: ?tail =>
      k (@nil event) r tail
  | ?e :: ?tr' => at_failed_edit tr' ltac:(fun b r t => k (e :: b) r t)
  end.

(** *** The scenario of the specification: a video comes back *)

Example video_scenario :
  @process_url unit www "tiktok" w_ok [] tt
  = (Ret tt, tt,
     [ EvLog DEBUG [Lit "Starting processing for "; Fmt www];
       EvReplyText "Processing media from Tiktok..." posted;
       EvMakedirs "downloads" (inr tt);
       EvLog DEBUG [Lit "Creating downloads directory"];
       EvLog DEBUG [Lit "Downloading media from "; Fmt www];
       EvYoutubeDL YDL_OPTS (inr tt);
       EvExtractInfo www fetched;
       EvPrepareFilename [("id", "987"); ("ext", "mp4")]
                         (inr "downloads/987.mp4");
       EvLog DEBUG [Lit "Downloaded file: "; Lit "downloads/987.mp4"];
       EvYoutubeDLExit (inr tt);
       EvLog DEBUG [Lit "Sending video: "; Lit "downloads/987.mp4"];
       EvEditMessageText 42 7 "Sending video from Tiktok..." (inr tt);
       EvOpen "downloads/987.mp4" (inr tt);
       EvReplyVideo "downloads/987.mp4"
                    [Lit "From "; Lit "Tiktok"; Lit ": "; Fmt www] (inr tt);
       EvClose "downloads/987.mp4" (inr tt);
       EvLog DEBUG [Lit "Video sent successfully"];
       EvEditMessageText 42 7 "Video sent successfully!" (inr tt);
       EvPathExists "downloads/987.mp4" true;
       EvLog DEBUG [Lit "Cleaning up file: "; Lit "downloads/987.mp4"];
       EvRemove "downloads/987.mp4" (inr tt) ]).
Proof. vm_compute. reflexivity. Qed.

(** *** Cleanup *)

(** C2, amended.  In a job that obtained a path from the fetcher, the
    events are those of the [try] and [except] blocks followed by those of
    the cleanup.  The former contain no removal and no existence test; the
    latter contain no chat operation.  So there is exactly one removal
    attempt, for that very path and after every send and edit, when the path
    is not empty and the file exists at cleanup, and none otherwise. *)
Theorem cleanup_removal w h url platform i p :
  In (EvPrepareFilename i (inr p)) (job_events w h url platform) ->
  exists found r body,
    job_events w h url platform = body ++ cleanup_trace p found r /\
    Forall (fun e => is_remove e = false /\ is_path_exists e = false) body /\
    Forall (fun e => is_chat e = false) (cleanup_trace p found r) /\
    filter is_remove (job_events w h url platform)
      = if nonempty p && found then [EvRemove p r] else [].
Proof.
  job_analysis.
  all: intros H; in_cases H.
  all: split_cleanup ltac:(unfold cleanup_trace).
Qed.

Lemma cleanup_removal_witness :
  In (EvPrepareFilename [("id", "987"); ("ext", "mp4")] (inr "downloads/987.mp4"))
     (job_events w_ok [] www "tiktok") /\
  exists found r body,
    job_events w_ok [] www "tiktok"
      = body ++ cleanup_trace "downloads/987.mp4" found r /\
    Forall (fun e => is_remove e = false /\ is_path_exists e = false) body /\
    Forall (fun e => is_chat e = false)
           (cleanup_trace "downloads/987.mp4" found r) /\
    filter is_remove (job_events w_ok [] www "tiktok")
      = if nonempty "downloads/987.mp4" && found
        then [EvRemove "downloads/987.mp4" r] else [].
Proof.
  assert (H : In (EvPrepareFilename [("id", "987"); ("ext", "mp4")]
                                    (inr "downloads/987.mp4"))
                 (job_events w_ok [] www "tiktok"))
    by (vm_compute; in_list).
  split; [exact H|].
  exact (cleanup_removal w_ok [] www "tiktok" _ _ H).
Defined.

(** C2 as stated fails: the fetcher gave a path, the file is gone when the
    cleanup looks for it, and no removal is attempted. *)
Lemma no_removal_when_file_missing :
  In (EvPrepareFilename [("id", "987"); ("ext", "mp4")] (inr "downloads/987.mp4"))
     (job_events w_file_gone [] www "tiktok") /\
  job_outcome w_file_gone [] www "tiktok" = Ret tt /\
  ~ exists r, In (EvRemove "downloads/987.mp4" r)
                 (job_events w_file_gone [] www "tiktok").
Proof.
  split; [vm_compute; in_list|]. split; [reflexivity|].
  intros [r H]. apply in_same_kind in H. vm_compute in H. exact H.
Qed.

(** C3, amended.  When the removal of the cleanup raises, the exception is
    the outcome of [process_url]: nothing catches it.  The removal is the
    last event of the job, so nothing is logged or sent about it and the
    status message stays as the job left it. *)
Theorem removal_failure_escapes w h url platform p e :
  In (EvRemove p (inl e)) (job_events w h url platform) ->
  job_outcome w h url platform = Exc e /\
  exists body,
    job_events w h url platform = body ++ [EvRemove p (inl e)] /\
    Forall (fun ev => is_remove ev = false) body.
Proof.
  job_analysis.
  all: intros H; in_cases H.
  all: split; [reflexivity|];
    lazymatch goal with
    | |- exists body, ?tr = _ /\ _ =>
        let b := all_but_last tr in
        exists b; split; [reflexivity | repeat constructor]
    end.
Qed.

Lemma removal_failure_escapes_witness :
  In (EvRemove "downloads/987.mp4" (inl permission_denied))
     (job_events w_remove_fails [] www "tiktok") /\
  job_outcome w_remove_fails [] www "tiktok" = Exc permission_denied /\
  exists body,
    job_events w_remove_fails [] www "tiktok"
      = body ++ [EvRemove "downloads/987.mp4" (inl permission_denied)] /\
    Forall (fun ev => is_remove ev = false) body.
Proof.
  assert (H : In (EvRemove "downloads/987.mp4" (inl permission_denied))
                 (job_events w_remove_fails [] www "tiktok"))
    by (vm_compute; in_list).
  split; [exact H|].
  exact (removal_failure_escapes w_remove_fails [] www "tiktok" _ _ H).
Defined.

(** C3 as stated fails: the removal raises, the exception escapes
    [process_url], and the job logs no error. *)
Lemma removal_failure_propagates :
  In (EvRemove "downloads/987.mp4" (inl permission_denied))
     (job_events w_remove_fails [] www "tiktok") /\
  job_outcome w_remove_fails [] www "tiktok" = Exc permission_denied /\
  Forall (fun ev => is_error_log ev = false)
         (job_events w_remove_fails [] www "tiktok").
Proof.
  split; [vm_compute; in_list|]. split; [reflexivity|].
  vm_compute. repeat constructor.
Qed.

(** *** Reporting a failure *)

(** C4, amended.  When the edit of the status message to the error text
    raises, the job logs it and posts the same text as a new reply; the
    exception of the edit goes no further.  What follows the reply is the
    cleanup, without any chat operation.  The reply itself is not guarded:
    when it raises, its exception is the outcome of [process_url], unless
    the removal of the cleanup raises in its turn. *)
Theorem failed_error_edit_falls_back w h url platform c i fp e :
  In (EvEditMessageText c i (error_message fp platform) (inl e))
     (job_events w h url platform) ->
  exists body r tail,
    job_events w h url platform
      = body ++ [EvEditMessageText c i (error_message fp platform) (inl e);
                 EvLog ERROR [Lit "Failed to edit message: "; FmtExn e];
                 EvReplyText (error_message fp platform) r] ++ tail /\
    Forall (fun ev => is_chat ev = false) tail /\
    job_outcome w h url platform
      = match failed_removal tail, r with
        | Some e', _ => Exc e'
        | None, inl e' => Exc e'
        | None, inr _ => Ret tt
        end.
Proof.
  job_analysis.
  all: intros H; in_cases H.
  all: use_text;
    lazymatch goal with
    | |- exists body r tail, ?tr = _ /\ _ =>
        at_failed_edit tr ltac:(fun b r t =>
          exists b, r, t; split; [reflexivity|];
          split; [repeat constructor | reflexivity])
    end.
Qed.

Lemma failed_error_edit_falls_back_witness :
  In (EvEditMessageText 42 7 (error_message None "tiktok") (inl not_editable))
     (job_events w_fetch_and_edit_fail [] www "tiktok") /\
  exists body r tail,
    job_events w_fetch_and_edit_fail [] www "tiktok"
      = body ++ [EvEditMessageText 42 7 (error_message None "tiktok")
                                   (inl not_editable);
                 EvLog ERROR [Lit "Failed to edit message: "; FmtExn not_editable];
                 EvReplyText (error_message None "tiktok") r] ++ tail /\
    Forall (fun ev => is_chat ev = false) tail /\
    job_outcome w_fetch_and_edit_fail [] www "tiktok"
      = match failed_removal tail, r with
        | Some e', _ => Exc e'
        | None, inl e' => Exc e'
        | None, inr _ => Ret tt
        end.
Proof.
  assert (H : In (EvEditMessageText 42 7 (error_message None "tiktok")
                                    (inl not_editable))
                 (job_events w_fetch_and_edit_fail [] www "tiktok"))
    by (vm_compute; in_list).
  split; [exact H|].
  exact (failed_error_edit_falls_back
           w_fetch_and_edit_fail [] www "tiktok" _ _ _ _ H).
Defined.

(** C4 as stated fails: the fetcher raises, the edit to the error text
    raises, the fallback reply raises too, and that last exception escapes
    [process_url]. *)
Lemma fallback_reply_failure_propagates :
  In (EvEditMessageText 42 7 (error_message None "tiktok") (inl not_editable))
     (job_events w_report_fails [] www "tiktok") /\
  In (EvReplyText (error_message None "tiktok") (inl timed_out))
     (job_events w_report_fails [] www "tiktok") /\
  job_outcome w_report_fails [] www "tiktok" = Exc timed_out.
Proof.
  split; [vm_compute; in_list|]. split; [vm_compute; in_list | reflexivity].
Qed.

(** C5, amended.  In a job whose [extract_info] raises, no edit to a
    Sending text is made; the only edit of the job is the edit of the status
    message to the error text, which names the platform.  When that edit
    returns, the status message ends with the error text; when it raises,
    the status message keeps its Processing text and the error text is
    posted as a new reply. *)
Theorem fetch_failure_status w h url platform e :
  In (EvExtractInfo url (inl e)) (job_events w h url platform) ->
  (forall c i r,
      ~ In (EvEditMessageText c i (sending_video_text platform) r)
           (job_events w h url platform) /\
      ~ In (EvEditMessageText c i (sending_photo_text platform) r)
           (job_events w h url platform)) /\
  mentions (error_message None platform) (capitalize platform) /\
  exists sm r,
    In (EvReplyText (processing_text platform) (inr sm))
       (job_events w h url platform) /\
    filter is_edit (job_events w h url platform)
      = [EvEditMessageText (chat_id sm) (message_id sm)
           (error_message None platform) r] /\
    status_text (job_events w h url platform)
      = Some (if raised r then processing_text platform
              else error_message None platform) /\
    (raised r = true ->
     exists r', In (EvReplyText (error_message None platform) r')
                   (job_events w h url platform)).
Proof.
  job_analysis.
  all: intros H; in_cases H.
  all: split;
    [ intros ? ? ?; split; intros Hin; in_cases Hin
    | split; [apply error_message_mentions_platform|] ].
  all: eexists; eexists; split; [in_list|];
    split; [reflexivity|];
    split; [ unfold status_text, status_after; cbn [fold_left status_step];
             rewrite ?Z.eqb_refl; reflexivity |];
    cbn [raised]; intros Hr; first [discriminate Hr | eexists; in_list].
Qed.

Lemma fetch_failure_status_witness :
  In (EvExtractInfo www (inl network_error))
     (job_events w_fetch_and_edit_fail [] www "tiktok") /\
  (forall c i r,
      ~ In (EvEditMessageText c i (sending_video_text "tiktok") r)
           (job_events w_fetch_and_edit_fail [] www "tiktok") /\
      ~ In (EvEditMessageText c i (sending_photo_text "tiktok") r)
           (job_events w_fetch_and_edit_fail [] www "tiktok")) /\
  mentions (error_message None "tiktok") (capitalize "tiktok") /\
  exists sm r,
    In (EvReplyText (processing_text "tiktok") (inr sm))
       (job_events w_fetch_and_edit_fail [] www "tiktok") /\
    filter is_edit (job_events w_fetch_and_edit_fail [] www "tiktok")
      = [EvEditMessageText (chat_id sm) (message_id sm)
           (error_message None "tiktok") r] /\
    status_text (job_events w_fetch_and_edit_fail [] www "tiktok")
      = Some (if raised r then processing_text "tiktok"
              else error_message None "tiktok") /\
    (raised r = true ->
     exists r', In (EvReplyText (error_message None "tiktok") r')
                   (job_events w_fetch_and_edit_fail [] www "tiktok")).
Proof.
  assert (H : In (EvExtractInfo www (inl network_error))
                 (job_events w_fetch_and_edit_fail [] www "tiktok"))
    by (vm_compute; in_list).
  split; [exact H|].
  exact (fetch_failure_status w_fetch_and_edit_fail [] www "tiktok" _ H).
Defined.

(** C5 as stated fails: the fetcher raises and the chat refuses the edit;
    the status message still reads Processing when the job is over. *)
Lemma fetch_failure_status_unchanged :
  In (EvExtractInfo www (inl network_error))
     (job_events w_fetch_and_edit_fail [] www "tiktok") /\
  status_text (job_events w_fetch_and_edit_fail [] www "tiktok")
    = Some "Processing media from Tiktok..."%string /\
  job_outcome w_fetch_and_edit_fail [] www "tiktok" = Ret tt.
Proof.
  split; [vm_compute; in_list|]. split; reflexivity.
Qed.

(** *** The status message *)

(** C6, amended.  Every job starts by posting the Processing text, once.
    When the post returns a message, that message is the one every edit of
    the job addresses; when it raises, the job has no status message and
    makes no edit and no send.  Every other text the job posts is the error
    text, which is not the Processing text. *)
Theorem one_status_message w h url platform :
  exists r rest,
    job_events w h url platform
      = EvLog DEBUG [Lit "Starting processing for "; Fmt url]
          :: EvReplyText (processing_text platform) r :: rest /\
    (forall t r', In (EvReplyText t r') rest ->
       exists fp, t = error_message fp platform) /\
    (forall c i t r', In (EvEditMessageText c i t r') rest ->
       exists sm, r = inr sm /\ c = chat_id sm /\ i = message_id sm) /\
    (raised r = true ->
       Forall (fun ev => is_edit ev = false /\ is_send ev = false) rest) /\
    (forall fp, processing_text platform <> error_message fp platform).
Proof.
  job_analysis.
  all: eexists; eexists; split; [reflexivity|];
    split; [intros ? ? Hin; in_cases Hin; eexists; reflexivity|];
    split; [intros ? ? ? ? Hin; in_cases Hin; eexists; repeat split; reflexivity|];
    split; [cbn [raised]; intros Hr; first [discriminate Hr | repeat constructor]|];
    intros ?; apply processing_text_is_no_error.
Qed.

(** C6 as stated fails: when the first post raises, the job creates no
    message at all, and the only text it tries to post after that is the
    error text. *)
Lemma no_status_message_created :
  messages_created (job_events w_chat_down [] www "tiktok") = [] /\
  filter is_chat (job_events w_chat_down [] www "tiktok")
    = [EvReplyText "Processing media from Tiktok..." (inl timed_out);
       EvReplyText (error_message None "tiktok") (inl timed_out)].
Proof. split; reflexivity. Qed.

(** *** Unsupported media *)

(** C7, amended.  When the fetcher returns a path that has neither a video
    nor a photo extension, the job sends nothing and edits the status
    message to the unsupported text.  When that edit returns, it is the only
    edit, no error is logged, and the job ends normally unless the removal
    of the cleanup raises.  The events end with the cleanup for that path in
    every case. *)
Theorem unsupported_media w h url platform i p :
  In (EvPrepareFilename i (inr p)) (job_events w h url platform) ->
  In (EvYoutubeDLExit (inr tt)) (job_events w h url platform) ->
  endswith_any p video_suffixes = false ->
  endswith_any p photo_suffixes = false ->
  Forall (fun ev => is_send ev = false) (job_events w h url platform) /\
  (exists sm r,
     In (EvReplyText (processing_text platform) (inr sm))
        (job_events w h url platform) /\
     In (EvEditMessageText (chat_id sm) (message_id sm)
           (unsupported_text platform) r)
        (job_events w h url platform) /\
     (raised r = false ->
        Forall (fun ev => is_error_log ev = false)
               (job_events w h url platform) /\
        filter is_edit (job_events w h url platform)
          = [EvEditMessageText (chat_id sm) (message_id sm)
               (unsupported_text platform) r] /\
        job_outcome w h url platform
          = match failed_removal (job_events w h url platform) with
            | Some e => Exc e
            | None => Ret tt
            end)) /\
  exists found r body,
    job_events w h url platform = body ++ cleanup_trace p found r /\
    Forall (fun e => is_remove e = false /\ is_path_exists e = false) body.
Proof.
  job_analysis.
  all: intros H1 H2 Hv Hp; in_cases H1; try clash_bool.
  all: in_cases H2.
  all: split; [repeat constructor|]; split;
    [ eexists; eexists; split; [in_list|]; split; [in_list|];
      cbn [raised]; intros Hr;
      first [ discriminate Hr
            | split; [repeat constructor|]; split; reflexivity ]
    | split_cleanup ltac:(unfold cleanup_trace) ].
Qed.

Lemma unsupported_media_witness :
  (In (EvPrepareFilename [("id", "987"); ("ext", "bin")] (inr "downloads/987.bin"))
      (job_events w_unknown_type [] www "tiktok") /\
   In (EvYoutubeDLExit (inr tt)) (job_events w_unknown_type [] www "tiktok") /\
   endswith_any "downloads/987.bin" video_suffixes = false /\
   endswith_any "downloads/987.bin" photo_suffixes = false) /\
  Forall (fun ev => is_send ev = false)
         (job_events w_unknown_type [] www "tiktok") /\
  (exists sm r,
     In (EvReplyText (processing_text "tiktok") (inr sm))
        (job_events w_unknown_type [] www "tiktok") /\
     In (EvEditMessageText (chat_id sm) (message_id sm)
           (unsupported_text "tiktok") r)
        (job_events w_unknown_type [] www "tiktok") /\
     (raised r = false ->
        Forall (fun ev => is_error_log ev = false)
               (job_events w_unknown_type [] www "tiktok") /\
        filter is_edit (job_events w_unknown_type [] www "tiktok")
          = [EvEditMessageText (chat_id sm) (message_id sm)
               (unsupported_text "tiktok") r] /\
        job_outcome w_unknown_type [] www "tiktok"
          = match failed_removal (job_events w_unknown_type [] www "tiktok") with
            | Some e => Exc e
            | None => Ret tt
            end)) /\
  exists found r body,
    job_events w_unknown_type [] www "tiktok"
      = body ++ cleanup_trace "downloads/987.bin" found r /\
    Forall (fun e => is_remove e = false /\ is_path_exists e = false) body.
Proof.
  assert (H1 : In (EvPrepareFilename [("id", "987"); ("ext", "bin")]
                                     (inr "downloads/987.bin"))
                  (job_events w_unknown_type [] www "tiktok"))
    by (vm_compute; in_list).
  assert (H2 : In (EvYoutubeDLExit (inr tt))
                  (job_events w_unknown_type [] www "tiktok"))
    by (vm_compute; in_list).
  assert (Hv : endswith_any "downloads/987.bin" video_suffixes = false)
    by reflexivity.
  assert (Hp : endswith_any "downloads/987.bin" photo_suffixes = false)
    by reflexivity.
  split; [repeat split; assumption|].
  exact (unsupported_media w_unknown_type [] www "tiktok" _ _ H1 H2 Hv Hp).
Defined.

(** C7 as stated fails: the fetcher returns a file of unknown type and the
    chat refuses the edit to the unsupported text; the job then goes through
    its [except] block, logs the error and tries the error text. *)
Lemma unsupported_edit_failure_enters_except :
  In (EvPrepareFilename [("id", "987"); ("ext", "bin")] (inr "downloads/987.bin"))
     (job_events w_unknown_type_edit_fails [] www "tiktok") /\
  In (EvYoutubeDLExit (inr tt))
     (job_events w_unknown_type_edit_fails [] www "tiktok") /\
  endswith_any "downloads/987.bin" video_suffixes = false /\
  endswith_any "downloads/987.bin" photo_suffixes = false /\
  In (EvLog ERROR [Lit "Error processing "; Fmt www; Lit ": ";
                   FmtExn not_editable])
     (job_events w_unknown_type_edit_fails [] www "tiktok") /\
  In (EvEditMessageText 42 7 (error_message (Some "downloads/987.bin") "tiktok")
                        (inl not_editable))
     (job_events w_unknown_type_edit_fails [] www "tiktok").
Proof.
  repeat split; try reflexivity; vm_compute; in_list.
Qed.

(** *** The fetcher raises *)

(** C8, amended.  When the fetcher raises before it gave a path, the error
    text is the one with the word media and the name of the platform, and
    editing the status message to it is the only edit of the job; the status
    message carries it when the edit returns, and keeps its Processing text,
    the error text being posted as a new reply, when the edit raises.  The
    job makes no removal attempt and does not even test for the file. *)
Theorem fetch_failure_edit_and_no_removal w h url platform :
  fetcher_raised url (job_events w h url platform) ->
  error_message None platform
    = ("Error sending media from " ++ capitalize platform
         ++ ". Please try again or use a different link.")%string /\
  (exists sm r,
     In (EvReplyText (processing_text platform) (inr sm))
        (job_events w h url platform) /\
     filter is_edit (job_events w h url platform)
       = [EvEditMessageText (chat_id sm) (message_id sm)
            (error_message None platform) r] /\
     status_text (job_events w h url platform)
       = Some (if raised r then processing_text platform
               else error_message None platform) /\
     (raised r = true ->
      exists r', In (EvReplyText (error_message None platform) r')
                    (job_events w h url platform))) /\
  Forall (fun ev => is_remove ev = false /\ is_path_exists ev = false)
         (job_events w h url platform).
Proof.
  job_analysis.
  all: intros (e' & [H|[H|(i' & H)]]); in_cases H.
  all: split; [reflexivity|]; split; [|repeat constructor].
  all: eexists; eexists; split; [in_list|];
    split; [reflexivity|];
    split; [ unfold status_text, status_after; cbn [fold_left status_step];
             rewrite ?Z.eqb_refl; reflexivity |];
    cbn [raised]; intros Hr; first [discriminate Hr | eexists; in_list].
Qed.

Lemma fetch_failure_edit_and_no_removal_witness :
  fetcher_raised www (job_events w_fetch_and_edit_fail [] www "twitter") /\
  error_message None "twitter"
    = ("Error sending media from " ++ capitalize "twitter"
         ++ ". Please try again or use a different link.")%string /\
  (exists sm r,
     In (EvReplyText (processing_text "twitter") (inr sm))
        (job_events w_fetch_and_edit_fail [] www "twitter") /\
     filter is_edit (job_events w_fetch_and_edit_fail [] www "twitter")
       = [EvEditMessageText (chat_id sm) (message_id sm)
            (error_message None "twitter") r] /\
     status_text (job_events w_fetch_and_edit_fail [] www "twitter")
       = Some (if raised r then processing_text "twitter"
               else error_message None "twitter") /\
     (raised r = true ->
      exists r', In (EvReplyText (error_message None "twitter") r')
                    (job_events w_fetch_and_edit_fail [] www "twitter"))) /\
  Forall (fun ev => is_remove ev = false /\ is_path_exists ev = false)
         (job_events w_fetch_and_edit_fail [] www "twitter").
Proof.
  assert (H : fetcher_raised www
                (job_events w_fetch_and_edit_fail [] www "twitter"))
    by (exists network_error; right; left; vm_compute; in_list).
  split; [exact H|].
  exact (fetch_failure_edit_and_no_removal
           w_fetch_and_edit_fail [] www "twitter" H).
Defined.

(** C8 as stated fails: the fetcher raises, the chat refuses the edit, and
    the status message is not edited: it still reads Processing. *)
Lemma fetch_failure_not_edited :
  fetcher_raised www (job_events w_fetch_and_edit_fail [] www "twitter") /\
  status_text (job_events w_fetch_and_edit_fail [] www "twitter")
    = Some "Processing media from Twitter..."%string /\
  In (EvReplyText (error_message None "twitter") posted)
     (job_events w_fetch_and_edit_fail [] www "twitter").
Proof.
  split; [exists network_error; right; left; vm_compute; in_list|].
  split; [reflexivity | vm_compute; in_list].
Qed.

(** ** One message *)

Lemma for_app {S X} (body : X -> M S unit) (l1 l2 : list X) w h s :
  for_ (l1 ++ l2) body w h s = (for_ l1 body ;;; for_ l2 body) w h s.
Proof.
  revert h s. induction l1 as [|x l1 IH]; intros h s; cbn [for_ app].
  - unfold bind, ret. rewrite app_nil_r.
    now destruct (for_ l2 body w h s) as [[r s'] t].
  - unfold bind.
    destruct (body x w h s) as [[[a|e] s1] t1]; [|reflexivity].
    rewrite IH. unfold bind.
    destruct (for_ l1 body w (h ++ t1) s1) as [[[a'|e'] s2] t2]; [|reflexivity].
    rewrite <- !app_assoc.
    destruct (for_ l2 body w (h ++ t1 ++ t2) s2) as [[r s3] t3].
    now rewrite app_assoc.
Qed.

Lemma for_map {S X Y} (f : X -> Y) (body : Y -> M S unit) (l : list X) w h s :
  for_ (map f l) body w h s = for_ l (fun x => body (f x)) w h s.
Proof.
  revert h s. induction l as [|x l IH]; intros h s; cbn [for_ map];
    [reflexivity|].
  unfold bind. destruct (body (f x) w h s) as [[[a|e] s1] t1]; [|reflexivity].
  now rewrite IH.
Qed.

Lemma bind_pointwise {S A B} (m m' : M S A) (f f' : A -> M S B) w h s :
  (forall w h s, m w h s = m' w h s) ->
  (forall a w h s, f a w h s = f' a w h s) ->
  (x <- m ;; f x) w h s = (x <- m' ;; f' x) w h s.
Proof.
  intros Hm Hf. unfold bind. rewrite Hm.
  destruct (m' w h s) as [[[a|e] s1] t1]; [|reflexivity].
  now rewrite Hf.
Qed.

(** With a pattern that compiles, the inner loop runs over the items of
    the matches. *)
Lemma inner_loop_run {S} U t pattern r (body : pyval -> M S unit) w h s :
  Re.compile pattern = Some r ->
  (urls <- lift (Re.findall U pattern t) ;; for_ urls body) w h s
  = for_ (map (Re.findall_item r t) (Re.occurrences U r t)) body w h s.
Proof.
  intros Hr. unfold bind, lift, Re.findall. rewrite Hr, app_nil_r.
  now destruct (for_ _ body w h s) as [[r0 s'] t'].
Qed.

(** The two nested loops visit the pairs of [link_matcher], in order. *)
Lemma nested_loops_on U t (table : list (string * string)) :
  Forall (fun entry : string * string =>
            exists r, Re.compile (snd entry) = Some r) table ->
  forall w h s,
    for_ table (fun entry : string * string =>
        let (platform, pattern) := entry in
        urls <- lift (Re.findall U pattern t) ;;
        for_ urls (fun url =>
          logger_debug [Lit "Processing URL: "; Fmt url; Lit " from ";
                        Lit platform] ;;;
          process_url url platform)) w h s
    = jobs (flat_map (fun entry : string * string =>
                        let (platform, pattern) := entry in
                        match Re.findall U pattern t with
                        | inr urls => map (fun url => (platform, url)) urls
                        | inl _ => []
                        end) table) w h s.
Proof.
  unfold jobs.
  induction 1 as [|[platform pattern] l [r Hr] Hl IH]; intros w h s;
    cbn [for_ flat_map]; [reflexivity|].
  cbn [snd] in Hr. rewrite for_app.
  apply bind_pointwise; [|intros _; exact IH].
  intros w' h' s'. rewrite (inner_loop_run U t pattern r _ w' h' s' Hr).
  unfold Re.findall. rewrite Hr.
  rewrite (for_map (fun url : pyval => (platform, url))). reflexivity.
Qed.

Lemma nested_loops U t w h s :
  for_ PLATFORMS (fun entry : string * string =>
      let (platform, pattern) := entry in
      urls <- lift (Re.findall U pattern t) ;;
      for_ urls (fun url =>
        logger_debug [Lit "Processing URL: "; Fmt url; Lit " from ";
                      Lit platform] ;;;
        process_url url platform)) w h s
  = jobs (link_matcher U t) w h s.
Proof. apply nested_loops_on, platforms_compile. Qed.

Lemma jobs_cons w h platform url links :
  jobs ((platform, url) :: links) w h tt
  = let job := job_events w (h ++ [url_log platform url]) url platform in
    match job_outcome w (h ++ [url_log platform url]) url platform with
    | Ret _ =>
        match jobs links w (h ++ url_log platform url :: job) tt with
        | (r, s, t) => (r, s, url_log platform url :: job ++ t)
        end
    | Exc e => (Exc e, tt, url_log platform url :: job)
    end.
Proof.
  unfold jobs. cbn [for_ fst snd]. set (rest := for_ links _).
  unfold bind, logger_debug. rewrite process_url_run.
  fold (url_log platform url). cbn [app].
  destruct (job_outcome w (h ++ [url_log platform url]) url platform);
    reflexivity.
Qed.

Ltac has_text_op tr :=
  lazymatch tr with
  | nil => constr:(false)
  | EvReplyText _ _ :: _ => constr:(true)
  | EvEditMessageText _ _ _ _ :: _ => constr:(true)
  | _ :: ?t => has_text_op t
  end.

(** The events of a run before the last text it posts or edits. *)
Ltac before_report tr :=
  lazymatch tr with
  | ?e :: ?t =>
      let b := has_text_op t in
      lazymatch b with
      | true => let r := before_report t in constr:(e :: r)
      | false => constr:(@nil event)
      end
  end.

(** Every run of [process_url] is a whole job, whatever the world
    answers. *)
Lemma process_url_whole w h url platform :
  whole_job url platform (job_events w h url platform).
Proof.
  unfold whole_job.
  job_analysis.
  all: split; [do 2 eexists; reflexivity|].
  all: cbn [obtained_path cleanup_of].
  all: lazymatch goal with
       | |- exists body report found r, ?tr = _ /\ _ =>
           let b := before_report tr in
           exists b; eexists;
           first [ exists false, (inr tt); unfold cleanup_trace;
                   use_nonempty; cbn [app]; split; [reflexivity|]
                 | exists true; eexists; unfold cleanup_trace;
                   use_nonempty; cbn [app]; split; [reflexivity|] ]
       end.
  all: split; [ eexists; split; [reflexivity|]; unfold terminal_texts;
                cbn [In]; solve [repeat (first [left; reflexivity | right])]
              | repeat constructor ].
Qed.

Lemma jobs_sequential w : forall links h,
  exists tr r, jobs links w h tt = (r, tt, tr) /\ sequential w h links tr r.
Proof.
  induction links as [|[platform url] links IH]; intros h.
  - exists [], (Ret tt). split; [reflexivity | constructor].
  - rewrite jobs_cons. cbv zeta.
    destruct (job_outcome w (h ++ [url_log platform url]) url platform)
      as [[]|e] eqn:Hout.
    + destruct (IH (h ++ url_log platform url
                      :: job_events w (h ++ [url_log platform url]) url platform))
        as (tr & r & Hrun & Hseq).
      rewrite Hrun.
      exists (url_log platform url
                :: job_events w (h ++ [url_log platform url]) url platform ++ tr), r.
      split; [reflexivity|].
      apply seq_next; [apply process_url_whole | exact Hout | exact Hseq].
    + exists (url_log platform url
                :: job_events w (h ++ [url_log platform url]) url platform),
             (Exc e).
      split; [reflexivity|].
      apply seq_stop; [apply process_url_whole | exact Hout].
Qed.

(** C10.  The events of [handle_message] on a message are its first log
    line followed by the events of the jobs of the matched pairs, in the
    order of the scan and one job after the other.  Each job is there whole
    before the log line that announces the next pair: it starts with its
    first log line and the Processing post, reaches its terminal report (a
    success text, the unsupported text or the error text) and ends with its
    cleanup, the existence test and the removal of the file the fetcher
    gave.  No pair is taken up after a job an exception escaped from. *)
Theorem handle_message_sequential U w h message_text :
  exists tr r,
    handle_message U message_text w h tt
      = (r, tt, EvLog DEBUG [Lit "Received message: "; FmtText message_text] :: tr) /\
    sequential w (h ++ [EvLog DEBUG [Lit "Received message: "; FmtText message_text]])
               (if truthy message_text
                then link_matcher U (text_of message_text) else [])
               tr r.
Proof.
  unfold handle_message, bind at 1, logger_debug.
  destruct (truthy message_text); cbn [negb].
  - rewrite nested_loops.
    destruct (jobs_sequential w (link_matcher U (text_of message_text))
                (h ++ [EvLog DEBUG [Lit "Received message: "; FmtText message_text]]))
      as (tr & r & Hrun & Hseq).
    rewrite Hrun. exists tr, r. split; [reflexivity | exact Hseq].
  - exists [], (Ret tt). split; [reflexivity | constructor].
Qed.

(** * More properties *)

(** ** Lengths of matches and of captures *)

Section Bounds.

Variable U : unicode_db.
Variable A : Type.
Variable B : nat.

Lemma plus_loop_bounds step lo hi :
  bounded_step A B lo hi step ->
  forall n s g k x, short_groups B g ->
    Re.plus_loop A step k n s g = Some x ->
    exists s' g',
      suffix_of s' s /\ short_groups B g' /\ k s' g' = Some x /\
      lo + length s' <= length s.
Proof.
  intros Hstep. induction n as [|n IH]; intros s g k x Hg H; [discriminate|].
  change (step s g (fun s' g' =>
            if length s' <? length s then
              match Re.plus_loop A step k n s' g' with
              | Some y => Some y
              | None => k s' g'
              end
            else k s' g') = Some x) in H.
  apply Hstep in H; [|exact Hg].
  destruct H as (s1 & g1 & Hs1 & Hg1 & H & Hlo & _).
  destruct (length s1 <? length s).
  - destruct (Re.plus_loop A step k n s1 g1) eqn:E.
    + injection H as ->. apply IH in E; [|exact Hg1].
      destruct E as (s2 & g2 & Hs2 & Hg2 & E & Hlo2).
      exists s2, g2. repeat split; try assumption.
      * eapply suffix_of_trans; eassumption.
      * lia.
    + exists s1, g1. repeat split; assumption.
  - exists s1, g1. repeat split; assumption.
Qed.

Lemma rmatch_bounds r :
  captures_within B r = true ->
  bounded_step A B (min_len r) (max_len r) (Re.rmatch U A r).
Proof.
  induction r; intros Hc s g k x Hg H; cbn [Re.rmatch] in H;
    cbn [min_len max_len captures_within] in *.
  - exists s, g. repeat split; try assumption; try apply suffix_of_refl; try lia.
    all: try (intros n [= <-]; lia).
  - destruct s as [|t s]; [discriminate|].
    destruct (Re.chr_ignorecase U c t); [|discriminate].
    exists s, g. repeat split; try assumption;
      try apply suffix_of_cons, suffix_of_refl; cbn; try lia.
    all: try (intros n [= <-]; lia).
  - destruct s as [|t s]; [discriminate|].
    destruct (negb (t =? c)%N); [|discriminate].
    exists s, g. repeat split; try assumption;
      try apply suffix_of_cons, suffix_of_refl; cbn; try lia.
    all: try (intros n [= <-]; lia).
  - destruct s as [|t s]; [discriminate|].
    destruct (Re.is_digit U t); [|discriminate].
    exists s, g. repeat split; try assumption;
      try apply suffix_of_cons, suffix_of_refl; cbn; try lia.
    all: try (intros n [= <-]; lia).
  - apply andb_prop in Hc. destruct Hc as [Hc1 Hc2].
    apply (IHr1 Hc1) in H; [|exact Hg].
    destruct H as (s1 & g1 & Hs1 & Hg1 & H & Hlo1 & Hhi1).
    apply (IHr2 Hc2) in H; [|exact Hg1].
    destruct H as (s2 & g2 & Hs2 & Hg2 & H & Hlo2 & Hhi2).
    exists s2, g2. repeat split; try assumption.
    + eapply suffix_of_trans; eassumption.
    + lia.
    + intros n Hn. destruct (max_len r1) as [n1|]; [|discriminate].
      destruct (max_len r2) as [n2|]; [|discriminate].
      injection Hn as <-.
      specialize (Hhi1 n1 eq_refl). specialize (Hhi2 n2 eq_refl). lia.
  - apply andb_prop in Hc. destruct Hc as [Hc1 Hc2].
    destruct (Re.rmatch U A r1 s g k) eqn:E.
    + injection H as ->. apply (IHr1 Hc1) in E; [|exact Hg].
      destruct E as (s1 & g1 & Hs1 & Hg1 & E & Hlo1 & Hhi1).
      exists s1, g1. repeat split; try assumption; [lia|].
      intros n Hn. destruct (max_len r1) as [n1|]; [|discriminate].
      destruct (max_len r2) as [n2|]; [|discriminate].
      injection Hn as <-. specialize (Hhi1 n1 eq_refl). lia.
    + apply (IHr2 Hc2) in H; [|exact Hg].
      destruct H as (s1 & g1 & Hs1 & Hg1 & H & Hlo1 & Hhi1).
      exists s1, g1. repeat split; try assumption; [lia|].
      intros n Hn. destruct (max_len r1) as [n1|]; [|discriminate].
      destruct (max_len r2) as [n2|]; [|discriminate].
      injection Hn as <-. specialize (Hhi1 n2 eq_refl). lia.
  - destruct (Re.rmatch U A r s g k) eqn:E.
    + injection H as ->. apply (IHr Hc) in E; [|exact Hg].
      destruct E as (s1 & g1 & Hs1 & Hg1 & E & Hlo1 & Hhi1).
      exists s1, g1. repeat split; try assumption. lia.
    + exists s, g. repeat split; try assumption; try apply suffix_of_refl;
        try lia.
      all: try (intros n _; lia).
  - apply (plus_loop_bounds _ _ _ (IHr Hc)) in H; [|exact Hg].
    destruct H as (s1 & g1 & Hs1 & Hg1 & H & Hlo1).
    exists s1, g1. repeat split; try assumption. discriminate.
  - destruct (max_len r) as [n0|] eqn:Hmax; [|discriminate].
    apply andb_prop in Hc. destruct Hc as [Hn0 Hc].
    apply Nat.leb_le in Hn0.
    apply (IHr Hc) in H; [|exact Hg].
    destruct H as (s1 & g1 & Hs1 & Hg1 & H & Hlo1 & Hhi1).
    exists s1, ((i, firstn (length s - length s1) s) :: g1).
    repeat split; try assumption.
    constructor; [|exact Hg1]. cbn [snd].
    rewrite length_firstn. specialize (Hhi1 n0 eq_refl). lia.
Qed.

End Bounds.

(** A match [search] finds is at least as long as the pattern requires and
    its captures are short. *)
Lemma search_bounds U B r : captures_within B r = true ->
  forall s must_advance b e g,
    Re.search U r s must_advance = Some (b, e, g) ->
    short_groups B g /\ min_len r + length e <= length b.
Proof.
  intros Hc. induction s as [|t s IH]; intros ma b e g H; cbn [Re.search] in H.
  - destruct (Re.rmatch U _ r [] [] (Re.accept ma [])) as [[e' g']|] eqn:E;
      [|discriminate].
    injection H as <- <- <-.
    apply (rmatch_bounds U _ B r Hc) in E; [|constructor].
    destruct E as (s1 & g1 & Hs1 & Hg1 & E & Hlo & _).
    unfold Re.accept in E.
    match type of E with (if ?c then _ else _) = _ => destruct c end;
      [discriminate|].
    injection E as -> ->. split; assumption.
  - destruct (Re.rmatch U _ r (t :: s) [] (Re.accept ma (t :: s)))
      as [[e' g']|] eqn:E.
    + injection H as <- <- <-.
      apply (rmatch_bounds U _ B r Hc) in E; [|constructor].
      destruct E as (s1 & g1 & Hs1 & Hg1 & E & Hlo & _).
      unfold Re.accept in E.
      match type of E with (if ?c then _ else _) = _ => destruct c end;
        [discriminate|].
      injection E as -> ->. split; assumption.
    + now apply IH in H.
Qed.

Lemma scan_loop_bounds U B r n : captures_within B r = true ->
  forall fuel s must_advance, length s <= n ->
    Forall (fun m => short_groups B (Re.m_groups m) /\
                     Re.m_start m + min_len r <= Re.m_end m /\
                     Re.m_end m <= n)
           (Re.scan_loop U fuel r n s must_advance).
Proof.
  intros Hc. induction fuel as [|fuel IH]; intros s ma Hn; cbn [Re.scan_loop];
    [constructor|].
  destruct (Re.search U r s ma) as [[[b e] g]|] eqn:E; [|constructor].
  pose proof (search_span _ _ _ _ _ _ _ E) as (Hb & He & _).
  apply (search_bounds U B r Hc) in E. destruct E as [Hg Hlen].
  apply suffix_of_length in Hb, He.
  constructor; [cbn; repeat split; [exact Hg | lia | lia]|].
  apply IH. lia.
Qed.

Lemma occurrences_bounds U B r subject : captures_within B r = true ->
  Forall (fun m => short_groups B (Re.m_groups m) /\
                   Re.m_start m + min_len r <= Re.m_end m /\
                   Re.m_end m <= length subject)
         (Re.occurrences U r subject).
Proof. intros Hc. now apply scan_loop_bounds. Qed.

Lemma group_or_empty_short B g i :
  short_groups B g -> length (Re.group_or_empty g i) <= B.
Proof.
  unfold Re.group_or_empty. induction 1 as [|[j t] g Hj Hg IH];
    cbn [group_lookup]; [cbn; lia|].
  destruct (Nat.eqb i j); [exact Hj | exact IH].
Qed.

Lemma slice_length subject b e :
  b <= e -> e <= length subject -> length (Re.slice subject b e) = e - b.
Proof.
  intros Hbe He. unfold Re.slice. rewrite length_firstn, length_skipn. lia.
Qed.

(** With at least one group, the item of a match is made of captures. *)
Lemma findall_item_short B r subject m :
  1 <= ngroups r -> short_groups B (Re.m_groups m) ->
  short_value B (Re.findall_item r subject m).
Proof.
  intros Hn Hg. unfold Re.findall_item.
  destruct (ngroups r) as [|[|k]]; [lia | |].
  - now apply group_or_empty_short.
  - cbn [short_value]. apply Forall_forall. intros s Hs.
    apply in_map_iff in Hs. destruct Hs as (i & <- & _).
    now apply group_or_empty_short.
Qed.

Lemma link_matcher_occurrences U t :
  link_matcher U t = map (link_of t) (link_occurrences U t).
Proof.
  unfold link_matcher, link_occurrences.
  cbn [flat_map PLATFORMS length seq nth snd].
  rewrite !findall_items, !map_app, !map_map, !app_nil_r. reflexivity.
Qed.

Lemma table_shape : Forall table_entry_shape PLATFORMS.
Proof.
  repeat constructor; eexists; (split; [vm_compute; reflexivity|]);
    (split; [vm_compute; reflexivity|]);
    (split; [vm_compute; repeat constructor|]);
    (split; [intros H; try (exfalso; apply H; reflexivity); vm_compute;
             repeat constructor
            | intros H; try discriminate H; split; reflexivity]).
Qed.

(** The pairs of [link_matcher] are the items of the matches of the
    patterns of the table. *)
Lemma link_matcher_in U t platform url :
  In (platform, url) (link_matcher U t) ->
  exists pattern m,
    In (platform, pattern) PLATFORMS /\
    In m (Re.finditer U pattern t) /\
    url = Re.item pattern t m.
Proof.
  unfold link_matcher. intros H. apply in_flat_map in H.
  destruct H as ([platform' pattern] & Hentry & H).
  rewrite findall_items in H. apply in_map_iff in H.
  destruct H as (m & [= <- <-] & Hm).
  now exists pattern, m.
Qed.

Lemma finditer_bounds U pattern r t m :
  Re.compile pattern = Some r -> captures_within 11 r = true ->
  In m (Re.finditer U pattern t) ->
  short_groups 11 (Re.m_groups m) /\
  Re.m_start m + min_len r <= Re.m_end m /\ Re.m_end m <= length t.
Proof.
  intros Hr Hc Hm. unfold Re.finditer in Hm. rewrite Hr in Hm.
  pose proof (occurrences_bounds U 11 r t Hc) as H.
  rewrite Forall_forall in H. now apply H.
Qed.

(** X1.  For tiktok, instagram and twitter the value paired with the
    platform is made of the captures of the groups, strings of at most 11
    characters, while the link it stands for has at least 23: the value is
    never the link. *)
Theorem grouped_links_carry_captures U t platform url :
  In (platform, url) (link_matcher U t) ->
  platform <> "tumblr"%string ->
  short_value 11 url /\
  exists pattern m,
    In (platform, pattern) PLATFORMS /\
    In m (Re.finditer U pattern t) /\
    shortest_link <= length (matched t m) /\
    url <> PyStr (matched t m).
Proof.
  intros Hin Hp. apply link_matcher_in in Hin.
  destruct Hin as (pattern & m & Hentry & Hm & ->).
  pose proof table_shape as Hshape. rewrite Forall_forall in Hshape.
  destruct (Hshape _ Hentry) as (r & Hr & Hc & Hmin & Hgroups & _).
  cbn [fst snd] in *. specialize (Hgroups Hp).
  destruct (finditer_bounds U pattern r t m Hr Hc Hm) as (Hg & Hlen & Hend).
  assert (Hshort : short_value 11 (Re.item pattern t m)).
  { unfold Re.item. rewrite Hr. now apply findall_item_short. }
  assert (Hlong : shortest_link <= length (matched t m)).
  { unfold matched. rewrite slice_length; lia. }
  split; [exact Hshort|].
  exists pattern, m. repeat split; try assumption.
  intros Heq. rewrite Heq in Hshort. cbn [short_value] in Hshort.
  unfold shortest_link in Hlong. lia.
Qed.

Lemma grouped_links_carry_captures_witness :
  (In ("tiktok"%string, PyStr (str "www."))
      (link_matcher ascii_db
         (str "check this https://www.tiktok.com/@someuser/video/1234567890123456789")) /\
   "tiktok"%string <> "tumblr"%string) /\
  short_value 11 (PyStr (str "www.")) /\
  exists pattern m,
    In ("tiktok"%string, pattern) PLATFORMS /\
    In m (Re.finditer ascii_db pattern
            (str "check this https://www.tiktok.com/@someuser/video/1234567890123456789")) /\
    shortest_link
      <= length (matched
                   (str "check this https://www.tiktok.com/@someuser/video/1234567890123456789")
                   m) /\
    PyStr (str "www.")
      <> PyStr (matched
                  (str "check this https://www.tiktok.com/@someuser/video/1234567890123456789")
                  m).
Proof.
  assert (H1 : In ("tiktok"%string, PyStr (str "www."))
                  (link_matcher ascii_db
                     (str "check this https://www.tiktok.com/@someuser/video/1234567890123456789")))
    by (vm_compute; left; reflexivity).
  assert (H2 : "tiktok"%string <> "tumblr"%string) by discriminate.
  split; [split; assumption|].
  exact (grouped_links_carry_captures ascii_db _ _ _ H1 H2).
Defined.

(** X2.  For tumblr the value paired with the platform is the link itself:
    the text the match covers, which lies inside the message and has at
    least 26 characters. *)
Theorem tumblr_links_carry_the_match U t url :
  In ("tumblr"%string, url) (link_matcher U t) ->
  exists m,
    In m (Re.finditer U "https?://[^/]+\.tumblr\.com/post/\d+" t) /\
    url = PyStr (matched t m) /\
    length (matched t m) = Re.m_end m - Re.m_start m /\
    Re.m_start m + 26 <= Re.m_end m /\
    Re.m_end m <= length t.
Proof.
  intros Hin. apply link_matcher_in in Hin.
  destruct Hin as (pattern & m & Hentry & Hm & ->).
  assert (Hpat : pattern = "https?://[^/]+\.tumblr\.com/post/\d+"%string).
  { cbn [In PLATFORMS] in Hentry.
    repeat (destruct Hentry as [Hentry|Hentry];
            [first [discriminate Hentry | now injection Hentry]|]).
    contradiction. }
  subst pattern.
  pose proof table_shape as Hshape. rewrite Forall_forall in Hshape.
  destruct (Hshape _ Hentry) as (r & Hr & Hc & _ & _ & Htumblr).
  cbn [fst snd] in *. destruct (Htumblr eq_refl) as [Hn Hmin].
  destruct (finditer_bounds U _ r t m Hr Hc Hm) as (_ & Hlen & Hend).
  exists m. split; [exact Hm|]. split.
  - unfold Re.item. rewrite Hr. unfold Re.findall_item. now rewrite Hn.
  - split; [unfold matched; rewrite slice_length; lia|]. split; lia.
Qed.

Lemma tumblr_links_carry_the_match_witness :
  In ("tumblr"%string, PyStr (str "http://blog.tumblr.com/post/123"))
     (link_matcher ascii_db (str "see http://blog.tumblr.com/post/123 !")) /\
  exists m,
    In m (Re.finditer ascii_db "https?://[^/]+\.tumblr\.com/post/\d+"
            (str "see http://blog.tumblr.com/post/123 !")) /\
    PyStr (str "http://blog.tumblr.com/post/123")
      = PyStr (matched (str "see http://blog.tumblr.com/post/123 !") m) /\
    length (matched (str "see http://blog.tumblr.com/post/123 !") m)
      = Re.m_end m - Re.m_start m /\
    Re.m_start m + 26 <= Re.m_end m /\
    Re.m_end m <= length (str "see http://blog.tumblr.com/post/123 !").
Proof.
  assert (H : In ("tumblr"%string, PyStr (str "http://blog.tumblr.com/post/123"))
                 (link_matcher ascii_db
                    (str "see http://blog.tumblr.com/post/123 !")))
    by (vm_compute; left; reflexivity).
  split; [exact H|].
  exact (tumblr_links_carry_the_match ascii_db _ _ H).
Defined.

(** A text of fewer than 23 characters holds no link of any platform. *)
Lemma no_link_in_short_text U t :
  length t < shortest_link -> link_matcher U t = [].
Proof.
  intros Hlen. destruct (link_matcher U t) as [|[platform url] l] eqn:E;
    [reflexivity|].
  assert (Hin : In (platform, url) (link_matcher U t))
    by (rewrite E; now left).
  apply link_matcher_in in Hin.
  destruct Hin as (pattern & m & Hentry & Hm & _).
  pose proof table_shape as Hshape. rewrite Forall_forall in Hshape.
  destruct (Hshape _ Hentry) as (r & Hr & Hc & Hmin & _).
  destruct (finditer_bounds U pattern r t m Hr Hc Hm) as (_ & Hl & Hend).
  lia.
Qed.

(** ** Letter case *)

Lemma same_letter_cases a b :
  same_letter a b = true ->
  a = b \/ ((a < 128)%N /\ (b < 128)%N /\ Re.lower_code a = Re.lower_code b).
Proof.
  unfold same_letter. intros H. apply orb_true_iff in H.
  destruct H as [H|H]; [left; now apply N.eqb_eq|].
  apply andb_true_iff in H. destruct H as [H H3].
  apply andb_true_iff in H. destruct H as [H1 H2].
  right. apply N.ltb_lt in H1, H2. apply N.eqb_eq in H3. now repeat split.
Qed.

Lemma lower_code_cases c :
  (Re.lower_code c = c /\ ~ (65 <= c <= 90)%N) \/
  (Re.lower_code c = (c + 32)%N /\ (65 <= c <= 90)%N).
Proof.
  unfold Re.lower_code.
  destruct (65 <=? c)%N eqn:H1, (c <=? 90)%N eqn:H2; cbn [andb];
    try apply N.leb_le in H1; try apply N.leb_le in H2;
    try apply N.leb_gt in H1; try apply N.leb_gt in H2;
    [right | left | left | left]; split; try reflexivity; lia.
Qed.

Lemma chr_ignorecase_same U c a b :
  (c <? 128)%N = true -> same_letter a b = true ->
  Re.chr_ignorecase U c a = Re.chr_ignorecase U c b.
Proof.
  intros Hc H. apply same_letter_cases in H.
  destruct H as [->|(Ha & Hb & H)]; [reflexivity|].
  unfold Re.chr_ignorecase.
  apply N.ltb_lt in Ha, Hb. rewrite Hc, Ha, Hb, H. reflexivity.
Qed.

Ltac compare_codes :=
  repeat match goal with
         | |- context [(?x <=? ?y)%N] => destruct (N.leb_spec x y)
         | |- context [(?x =? ?y)%N] => destruct (N.eqb_spec x y)
         | H : context [(?x <=? ?y)%N] |- _ => destruct (N.leb_spec x y)
         end;
  cbn [andb orb negb] in *; try reflexivity; try discriminate; try lia.

Lemma is_digit_same U a b :
  same_letter a b = true -> Re.is_digit U a = Re.is_digit U b.
Proof.
  intros H. apply same_letter_cases in H.
  destruct H as [->|(Ha & Hb & H)]; [reflexivity|].
  unfold Re.is_digit.
  pose proof Ha as Ha'. pose proof Hb as Hb'.
  apply N.ltb_lt in Ha', Hb'. rewrite Ha', Hb'.
  destruct (lower_code_cases a) as [[Ea Na]|[Ea Na]],
           (lower_code_cases b) as [[Eb Nb]|[Eb Nb]];
    rewrite Ea, Eb in H; compare_codes.
Qed.

Lemma not_chr_same c a b :
  is_ascii_letter c = false -> same_letter a b = true ->
  negb (a =? c)%N = negb (b =? c)%N.
Proof.
  intros Hc H. apply same_letter_cases in H.
  destruct H as [->|(Ha & Hb & H)]; [reflexivity|].
  unfold is_ascii_letter in Hc.
  destruct (lower_code_cases a) as [[Ea Na]|[Ea Na]],
           (lower_code_cases b) as [[Eb Nb]|[Eb Nb]];
    rewrite Ea, Eb in H; compare_codes.
Qed.

Lemma same_text_length s s' : same_text s s' -> length s = length s'.
Proof. apply Forall2_length. Qed.

Lemma same_text_firstn n s s' :
  same_text s s' -> same_text (firstn n s) (firstn n s').
Proof.
  intros H. revert n. induction H as [|a b s s' Hab H IH]; intros [|n];
    cbn [firstn]; try constructor; auto; apply IH.
Qed.

Lemma same_text_skipn n s s' :
  same_text s s' -> same_text (skipn n s) (skipn n s').
Proof.
  intros H. revert n. induction H as [|a b s s' Hab H IH]; intros [|n];
    cbn [skipn]; try constructor; auto; apply IH.
Qed.

Section Case.

Variable U : unicode_db.
Variable A : Type.
Variable R : A -> A -> Prop.

Lemma plus_loop_same step k k' :
  same_step R step -> same_cont R k k' ->
  forall n s s' g g', same_text s s' -> same_groups g g' ->
    both R (Re.plus_loop A step k n s g) (Re.plus_loop A step k' n s' g').
Proof.
  intros Hstep Hk. induction n as [|n IH]; intros s s' g g' Hs Hg;
    [exact I|].
  cbn [Re.plus_loop]. apply Hstep; [exact Hs | exact Hg |].
  intros s1 s1' g1 g1' Hs1 Hg1.
  rewrite (same_text_length _ _ Hs), (same_text_length _ _ Hs1).
  destruct (length s1' <? length s').
  - specialize (IH s1 s1' g1 g1' Hs1 Hg1). unfold both in IH.
    destruct (Re.plus_loop A step k n s1 g1),
             (Re.plus_loop A step k' n s1' g1');
      try contradiction; [exact IH | now apply Hk].
  - now apply Hk.
Qed.

Lemma rmatch_same r :
  ascii_pattern r = true -> same_step R (Re.rmatch U A r).
Proof.
  induction r as [|c|c| |r1 IH1 r2 IH2|r1 IH1 r2 IH2|r1 IH1|r1 IH1|i r1 IH1];
    intros Hr s s' g g' k k' Hs Hg Hk; cbn [Re.rmatch ascii_pattern] in *.
  - now apply Hk.
  - destruct Hs as [|a b s s' Hab Hs]; [exact I|].
    rewrite (chr_ignorecase_same U c a b Hr Hab).
    destruct (Re.chr_ignorecase U c b); [now apply Hk | exact I].
  - destruct Hs as [|a b s s' Hab Hs]; [exact I|].
    apply negb_true_iff in Hr.
    rewrite (not_chr_same c a b Hr Hab).
    destruct (negb (b =? c)%N); [now apply Hk | exact I].
  - destruct Hs as [|a b s s' Hab Hs]; [exact I|].
    rewrite (is_digit_same U a b Hab).
    destruct (Re.is_digit U b); [now apply Hk | exact I].
  - apply andb_true_iff in Hr. destruct Hr as [Hr1 Hr2].
    apply (IH1 Hr1); [exact Hs | exact Hg |].
    intros s1 s1' g1 g1' Hs1 Hg1. now apply (IH2 Hr2).
  - apply andb_true_iff in Hr. destruct Hr as [Hr1 Hr2].
    pose proof (IH1 Hr1 s s' g g' k k' Hs Hg Hk) as H1. unfold both in H1.
    destruct (Re.rmatch U A r1 s g k), (Re.rmatch U A r1 s' g' k');
      try contradiction; [exact H1 | now apply (IH2 Hr2)].
  - pose proof (IH1 Hr s s' g g' k k' Hs Hg Hk) as H1. unfold both in H1.
    destruct (Re.rmatch U A r1 s g k), (Re.rmatch U A r1 s' g' k');
      try contradiction; [exact H1 | now apply Hk].
  - rewrite (same_text_length _ _ Hs).
    apply plus_loop_same; auto.
  - apply (IH1 Hr); [exact Hs | exact Hg |].
    intros s1 s1' g1 g1' Hs1 Hg1.
    apply Hk; [exact Hs1|].
    constructor; [|exact Hg1]. cbn [fst snd]. split; [reflexivity|].
    rewrite (same_text_length _ _ Hs), (same_text_length _ _ Hs1).
    now apply same_text_firstn.
Qed.

End Case.

Lemma accept_same must_advance s s' :
  same_text s s' ->
  same_cont same_end (Re.accept must_advance s) (Re.accept must_advance s').
Proof.
  intros Hs s1 s1' g1 g1' Hs1 Hg1. unfold Re.accept.
  rewrite (same_text_length _ _ Hs), (same_text_length _ _ Hs1).
  destruct (must_advance && (length s1' =? length s')); [exact I|].
  now split.
Qed.

Lemma match_at_same U r must_advance s s' :
  ascii_pattern r = true -> same_text s s' ->
  both same_end
       (Re.rmatch U _ r s [] (Re.accept must_advance s))
       (Re.rmatch U _ r s' [] (Re.accept must_advance s')).
Proof.
  intros Hr Hs. apply rmatch_same; [exact Hr | exact Hs | constructor |].
  now apply accept_same.
Qed.

Lemma search_same U r : ascii_pattern r = true ->
  forall s s' must_advance, same_text s s' ->
    both same_span (Re.search U r s must_advance)
                   (Re.search U r s' must_advance).
Proof.
  intros Hr s s' ma Hs. revert ma.
  induction Hs as [|a b s s' Hab Hs IH]; intros ma.
  - cbn [Re.search].
    pose proof (match_at_same U r ma [] [] Hr (Forall2_nil _)) as H.
    unfold both in H.
    destruct (Re.rmatch U _ r [] [] (Re.accept ma [])) as [[e g]|];
      [|exact I].
    destruct H as [He Hg]. repeat split; [constructor | exact He | exact Hg].
  - cbn [Re.search].
    pose proof (match_at_same U r ma (a :: s) (b :: s') Hr
                  (Forall2_cons _ _ Hab Hs)) as H.
    unfold both in H.
    destruct (Re.rmatch U _ r (a :: s) [] (Re.accept ma (a :: s))) as [[e g]|],
             (Re.rmatch U _ r (b :: s') [] (Re.accept ma (b :: s'))) as [[e' g']|];
      try contradiction; [|apply IH].
    destruct H as [He Hg].
    repeat split; [now constructor | exact He | exact Hg].
Qed.

Lemma scan_loop_same U r n : ascii_pattern r = true ->
  forall fuel s s' must_advance, same_text s s' ->
    Forall2 same_occurrence (Re.scan_loop U fuel r n s must_advance)
                            (Re.scan_loop U fuel r n s' must_advance).
Proof.
  intros Hr. induction fuel as [|fuel IH]; intros s s' ma Hs;
    cbn [Re.scan_loop]; [constructor|].
  pose proof (search_same U r Hr s s' ma Hs) as H. unfold both in H.
  destruct (Re.search U r s ma) as [[[b e] g]|],
           (Re.search U r s' ma) as [[[b' e'] g']|];
    try contradiction; [|constructor].
  destruct H as (Hb & He & Hg). cbn [fst snd] in *.
  rewrite (same_text_length _ _ Hb), (same_text_length _ _ He).
  constructor; [now repeat split | now apply IH].
Qed.

Lemma occurrences_same U r s s' :
  ascii_pattern r = true -> same_text s s' ->
  Forall2 same_occurrence (Re.occurrences U r s) (Re.occurrences U r s').
Proof.
  intros Hr Hs. unfold Re.occurrences, Re.scan_fuel.
  rewrite (same_text_length _ _ Hs). now apply scan_loop_same.
Qed.

Lemma group_or_empty_same g g' i :
  same_groups g g' ->
  same_text (Re.group_or_empty g i) (Re.group_or_empty g' i).
Proof.
  unfold Re.group_or_empty.
  induction 1 as [|[j t] [j' t'] g g' [Hj Ht] Hg IH]; cbn [group_lookup];
    [constructor|].
  cbn [fst snd] in *. subst j'.
  destruct (Nat.eqb i j); [exact Ht | exact IH].
Qed.

Lemma findall_item_same r s s' m m' :
  same_text s s' -> same_occurrence m m' ->
  same_value (Re.findall_item r s m) (Re.findall_item r s' m').
Proof.
  intros Hs (Hstart & Hend & Hg). unfold Re.findall_item.
  destruct (ngroups r) as [|[|k]]; cbn [same_value].
  - unfold Re.slice. rewrite Hstart, Hend.
    now apply same_text_firstn, same_text_skipn.
  - now apply group_or_empty_same.
  - induction (seq 1 (S (S k))) as [|i l IH]; cbn [map]; constructor;
      [now apply group_or_empty_same | exact IH].
Qed.

Lemma Forall2_map_both {X Y} (P : X -> X -> Prop) (Q : Y -> Y -> Prop)
      (f f' : X -> Y) l l' :
  (forall x x', P x x' -> Q (f x) (f' x')) ->
  Forall2 P l l' -> Forall2 Q (map f l) (map f' l').
Proof.
  intros Hf. induction 1; cbn [map]; constructor; auto.
Qed.

(** The table is made of ASCII patterns. *)
Lemma table_ascii :
  Forall (fun entry : string * string =>
            exists r, Re.compile (snd entry) = Some r /\
                      ascii_pattern r = true) PLATFORMS.
Proof. repeat constructor; eexists; split; vm_compute; reflexivity. Qed.

(** X3.  The scan ignores the case of ASCII letters.  Two messages that
    differ by the case of such letters only give the same platforms in the
    same order, from matches at the same places, and the values paired with
    the platforms differ by the case of these letters at most. *)
Theorem link_matcher_ignores_case U t t' :
  same_text t t' ->
  Forall2 (fun link link' : string * pyval =>
             fst link = fst link' /\ same_value (snd link) (snd link'))
          (link_matcher U t) (link_matcher U t') /\
  Forall2 (fun o o' : nat * Re.occurrence =>
             fst o = fst o' /\
             Re.m_start (snd o) = Re.m_start (snd o') /\
             Re.m_end (snd o) = Re.m_end (snd o'))
          (link_occurrences U t) (link_occurrences U t').
Proof.
  intros Ht. split.
  - unfold link_matcher.
    pose proof table_ascii as Htable.
    induction Htable as [|[platform pattern] table (r & Hr & Hascii) _ IH];
      cbn [flat_map]; [constructor|].
    apply Forall2_app; [|exact IH].
    unfold Re.findall. cbn [snd] in Hr. rewrite Hr. rewrite !map_map.
    apply (Forall2_map_both same_occurrence);
      [| now apply occurrences_same].
    intros m m' Hm. cbn [fst snd]. split; [reflexivity|].
    now apply findall_item_same.
  - unfold link_occurrences.
    induction (seq 0 (length PLATFORMS)) as [|i l IH];
      cbn [flat_map]; [constructor|].
    apply Forall2_app; [|exact IH].
    unfold Re.finditer.
    destruct (Re.compile (snd (nth i PLATFORMS ("", "")))) as [r|] eqn:Hr;
      [|constructor].
    assert (Hascii : ascii_pattern r = true).
    { pose proof table_ascii as Htable. rewrite Forall_forall in Htable.
      destruct (Nat.lt_ge_cases i (length PLATFORMS)) as [Hi|Hi].
      - destruct (Htable (nth i PLATFORMS ("", "")) (nth_In _ _ Hi))
          as (r' & Hr' & H'). congruence.
      - rewrite nth_overflow in Hr by exact Hi. cbn in Hr.
        injection Hr as <-. reflexivity. }
    apply (Forall2_map_both same_occurrence);
      [| now apply occurrences_same].
    intros m m' (Hs & He & _). cbn [fst snd]. auto.
Qed.

Lemma link_matcher_ignores_case_witness :
  same_text (str "HTTP://Blog.Tumblr.COM/post/123")
            (str "http://blog.tumblr.com/post/123") /\
  Forall2 (fun link link' : string * pyval =>
             fst link = fst link' /\ same_value (snd link) (snd link'))
          (link_matcher ascii_db (str "HTTP://Blog.Tumblr.COM/post/123"))
          (link_matcher ascii_db (str "http://blog.tumblr.com/post/123")).
Proof.
  assert (H : same_text (str "HTTP://Blog.Tumblr.COM/post/123")
                        (str "http://blog.tumblr.com/post/123"))
    by (vm_compute; repeat constructor).
  split; [exact H|].
  exact (proj1 (link_matcher_ignores_case ascii_db _ _ H)).
Defined.

Example upper_case_link :
  link_matcher ascii_db (str "HTTP://Blog.Tumblr.COM/post/123")
  = [("tumblr"%string, PyStr (str "HTTP://Blog.Tumblr.COM/post/123"))].
Proof. vm_compute. reflexivity. Qed.

(** ** More on one job *)

(** Settle which calls of a run raised; [simp] simplifies [H]. *)
Ltac decide_raises H simp :=
  simp;
  repeat match type of H with
         | context [match ?x with inl _ => _ | inr _ => _ end] =>
             destruct x; simp
         end.

(** Cut a run that delivered where its [finally] block starts;
    [unfold_cleanup] unfolds the description of that block and [settle]
    settles the status. *)
Ltac delivered unfold_cleanup settle :=
  lazymatch goal with
  | |- exists sm found body, ?tr = _ /\ _ =>
      let b := body_before_cleanup tr in
      eexists;
      first [ exists true, b; unfold_cleanup; use_nonempty; cbn [app];
              split; [reflexivity|]; split; [reflexivity|]; settle
            | exists false, b; unfold_cleanup; use_nonempty;
              rewrite ?app_nil_r;
              split; [reflexivity|]; split; [reflexivity|]; settle ]
  end.

(** The edits of a run address the message its first post created. *)
Ltac own_message := repeat (rewrite ?Z.eqb_refl; cbn [andb]).

(** The events of a run before its first error line. *)
Ltac before_error_log tr :=
  lazymatch tr with
  | EvLog ERROR _ :: _ => constr:(@nil event)
  | ?e :: ?tr' => let b := before_error_log tr' in constr:(e :: b)
  end.

(** The events of a run before it opens the file. *)
Ltac before_open tr :=
  lazymatch tr with
  | EvOpen _ _ :: _ => constr:(@nil event)
  | ?e :: ?tr' => let b := before_open tr' in constr:(e :: b)
  end.

(** X5.  When no call raises and the fetcher gives a path with a video
    extension, the job posts the Processing text, edits it to the Sending
    video text, sends the file once as a video with the caption made of the
    platform and the url, edits the status to the success text, and ends
    normally after the cleanup; these are its only chat operations. *)
Theorem video_delivery w h url platform p :
  smooth (job_events w h url platform) = true ->
  obtained_path (job_events w h url platform) = Some p ->
  endswith_any p video_suffixes = true ->
  job_outcome w h url platform = Ret tt /\
  exists sm found body,
    job_events w h url platform = body ++ cleanup_trace p found (inr tt) /\
    filter is_chat body
      = [ EvReplyText (processing_text platform) (inr sm);
          EvEditMessageText (chat_id sm) (message_id sm)
                            (sending_video_text platform) (inr tt);
          EvReplyVideo p (caption platform url) (inr tt);
          EvEditMessageText (chat_id sm) (message_id sm)
                            "Video sent successfully!" (inr tt) ] /\
    status_text (job_events w h url platform)
      = Some "Video sent successfully!"%string.
Proof.
  job_analysis.
  all: intros Hs Hp Hv;
    decide_raises Hs ltac:(unfold smooth in Hs;
                           cbn [existsb event_raised raised orb negb] in Hs;
                           unfold raised in Hs; cbn [orb negb] in Hs);
    try discriminate Hs; cbn [obtained_path] in Hp; try discriminate Hp.
  all: injection Hp as ->; try clash_bool.
  all: split; [reflexivity|].
  all: delivered ltac:(unfold cleanup_trace)
         ltac:(unfold status_text, status_after; cbn [fold_left status_step];
               own_message; reflexivity).
Qed.

Lemma video_delivery_witness :
  smooth (job_events w_ok [] www "tiktok") = true /\
  obtained_path (job_events w_ok [] www "tiktok") = Some "downloads/987.mp4" /\
  endswith_any "downloads/987.mp4" video_suffixes = true /\
  job_outcome w_ok [] www "tiktok" = Ret tt.
Proof.
  assert (Hs : smooth (job_events w_ok [] www "tiktok") = true)
    by (vm_compute; reflexivity).
  assert (Hp : obtained_path (job_events w_ok [] www "tiktok")
               = Some "downloads/987.mp4") by (vm_compute; reflexivity).
  assert (Hv : endswith_any "downloads/987.mp4" video_suffixes = true)
    by (vm_compute; reflexivity).
  split; [exact Hs|]. split; [exact Hp|]. split; [exact Hv|].
  exact (proj1 (video_delivery w_ok [] www "tiktok" "downloads/987.mp4" Hs Hp Hv)).
Defined.

(** X6.  The same for a path with a photo extension: Processing post,
    Sending photo edit, one photo send of the file with the caption, success
    edit, cleanup, normal end. *)
Theorem photo_delivery w h url platform p :
  smooth (job_events w h url platform) = true ->
  obtained_path (job_events w h url platform) = Some p ->
  endswith_any p video_suffixes = false ->
  endswith_any p photo_suffixes = true ->
  job_outcome w h url platform = Ret tt /\
  exists sm found body,
    job_events w h url platform = body ++ cleanup_trace p found (inr tt) /\
    filter is_chat body
      = [ EvReplyText (processing_text platform) (inr sm);
          EvEditMessageText (chat_id sm) (message_id sm)
                            (sending_photo_text platform) (inr tt);
          EvReplyPhoto p (caption platform url) (inr tt);
          EvEditMessageText (chat_id sm) (message_id sm)
                            "Photo sent successfully!" (inr tt) ] /\
    status_text (job_events w h url platform)
      = Some "Photo sent successfully!"%string.
Proof.
  job_analysis.
  all: intros Hs Hp Hv Hph;
    decide_raises Hs ltac:(unfold smooth in Hs;
                           cbn [existsb event_raised raised orb negb] in Hs;
                           unfold raised in Hs; cbn [orb negb] in Hs);
    try discriminate Hs; cbn [obtained_path] in Hp; try discriminate Hp.
  all: injection Hp as ->; try clash_bool.
  all: split; [reflexivity|].
  all: delivered ltac:(unfold cleanup_trace)
         ltac:(unfold status_text, status_after; cbn [fold_left status_step];
               own_message; reflexivity).
Qed.

Lemma photo_delivery_witness :
  smooth (job_events w_photo [] www "instagram") = true /\
  obtained_path (job_events w_photo [] www "instagram")
    = Some "downloads/987.jpg" /\
  endswith_any "downloads/987.jpg" video_suffixes = false /\
  endswith_any "downloads/987.jpg" photo_suffixes = true /\
  job_outcome w_photo [] www "instagram" = Ret tt.
Proof.
  assert (Hs : smooth (job_events w_photo [] www "instagram") = true)
    by (vm_compute; reflexivity).
  assert (Hp : obtained_path (job_events w_photo [] www "instagram")
               = Some "downloads/987.jpg") by (vm_compute; reflexivity).
  assert (Hv : endswith_any "downloads/987.jpg" video_suffixes = false)
    by (vm_compute; reflexivity).
  assert (Hph : endswith_any "downloads/987.jpg" photo_suffixes = true)
    by (vm_compute; reflexivity).
  split; [exact Hs|]. split; [exact Hp|]. split; [exact Hv|]. split; [exact Hph|].
  exact (proj1 (photo_delivery w_photo [] www "instagram" "downloads/987.jpg"
                               Hs Hp Hv Hph)).
Defined.

(** X7.  A job sends at most one attachment.  When it sends one, it is the
    file at the path the fetcher gave, with the caption made of the platform
    and the url; it goes out as a video when the path has a video extension
    and as a photo when it has a photo extension and no video extension. *)
Theorem one_send_of_the_fetched_file w h url platform ev :
  is_send ev = true ->
  In ev (job_events w h url platform) ->
  filter is_send (job_events w h url platform) = [ev] /\
  exists p r,
    obtained_path (job_events w h url platform) = Some p /\
    ((ev = EvReplyVideo p (caption platform url) r /\
      endswith_any p video_suffixes = true) \/
     (ev = EvReplyPhoto p (caption platform url) r /\
      endswith_any p video_suffixes = false /\
      endswith_any p photo_suffixes = true)).
Proof.
  destruct ev; intros Hsend; try discriminate Hsend; clear Hsend.
  all: job_analysis.
  all: intros H; in_cases H.
  all: (split; [reflexivity|]); cbn [obtained_path];
    do 2 eexists; (split; [reflexivity|]);
    first [ left; split; [reflexivity | assumption]
          | right; split; [reflexivity|]; split; assumption ].
Qed.

Lemma one_send_of_the_fetched_file_witness :
  is_send (EvReplyVideo "downloads/987.mp4" (caption "tiktok" www) (inr tt))
    = true /\
  In (EvReplyVideo "downloads/987.mp4" (caption "tiktok" www) (inr tt))
     (job_events w_ok [] www "tiktok") /\
  filter is_send (job_events w_ok [] www "tiktok")
    = [EvReplyVideo "downloads/987.mp4" (caption "tiktok" www) (inr tt)].
Proof.
  assert (Hs : is_send (EvReplyVideo "downloads/987.mp4"
                                     (caption "tiktok" www) (inr tt)) = true)
    by reflexivity.
  assert (Hin : In (EvReplyVideo "downloads/987.mp4" (caption "tiktok" www)
                                 (inr tt))
                   (job_events w_ok [] www "tiktok"))
    by (vm_compute; in_list).
  split; [exact Hs|]. split; [exact Hin|].
  exact (proj1 (one_send_of_the_fetched_file w_ok [] www "tiktok" _ Hs Hin)).
Defined.

(** X8.  A file the job opened is handed to the one send of the job and
    closed right after it, whether the send returned or raised; the job
    opens no other file.  When the open itself raises, nothing is sent. *)
Theorem opened_file_is_sent_then_closed w h url platform p r :
  In (EvOpen p r) (job_events w h url platform) ->
  obtained_path (job_events w h url platform) = Some p /\
  filter is_open (job_events w h url platform) = [EvOpen p r] /\
  match r with
  | inr _ =>
      exists pre send closed post,
        job_events w h url platform
          = pre ++ EvOpen p r :: send :: EvClose p closed :: post /\
        is_send send = true /\
        filter is_send (job_events w h url platform) = [send]
  | inl _ => filter is_send (job_events w h url platform) = []
  end.
Proof.
  job_analysis.
  all: intros H; in_cases H.
  all: (split; [reflexivity|]); (split; [reflexivity|]).
  all: try reflexivity.
  all: lazymatch goal with
       | |- exists pre send closed post, ?tr = _ /\ _ =>
           let b := before_open tr in
           exists b; do 3 eexists; cbn [app];
           split; [reflexivity|]; split; reflexivity
       end.
Qed.

Lemma opened_file_is_sent_then_closed_witness :
  In (EvOpen "downloads/987.mp4" (inr tt)) (job_events w_ok [] www "tiktok") /\
  filter is_open (job_events w_ok [] www "tiktok")
    = [EvOpen "downloads/987.mp4" (inr tt)].
Proof.
  assert (Hin : In (EvOpen "downloads/987.mp4" (inr tt))
                   (job_events w_ok [] www "tiktok"))
    by (vm_compute; in_list).
  split; [exact Hin|].
  exact (proj1 (proj2 (opened_file_is_sent_then_closed
                         w_ok [] www "tiktok" _ _ Hin))).
Defined.

(** X9.  An exception leaves [process_url] in two ways only: the removal
    of the cleanup raised, or a post of the error text raised and the
    cleanup went through.  In both cases it is the exception of the last
    call of the job that raised.  No exception of the download, of a send or
    of an edit leaves the job. *)
Theorem escaping_exception_origin w h url platform e :
  job_outcome w h url platform = Exc e ->
  exists ev,
    last_raising (job_events w h url platform) = Some ev /\
    ((exists p, obtained_path (job_events w h url platform) = Some p /\
                ev = EvRemove p (inl e)) \/
     ev = EvReplyText
            (error_message (obtained_path (job_events w h url platform)) platform)
            (inl e)).
Proof.
  job_analysis.
  all: intros Hr; first [discriminate Hr | injection Hr as ->].
  all: eexists; cbn [last_raising event_raised raised obtained_path];
    (split; [reflexivity|]).
  all: first [ right; reflexivity
             | left; eexists; split; reflexivity ].
Qed.

Lemma escaping_exception_origin_witness :
  job_outcome w_remove_fails [] www "tiktok" = Exc permission_denied /\
  exists ev,
    last_raising (job_events w_remove_fails [] www "tiktok") = Some ev /\
    ((exists p, obtained_path (job_events w_remove_fails [] www "tiktok") = Some p /\
                ev = EvRemove p (inl permission_denied)) \/
     ev = EvReplyText
            (error_message (obtained_path (job_events w_remove_fails [] www "tiktok"))
                           "tiktok")
            (inl permission_denied)).
Proof.
  assert (H : job_outcome w_remove_fails [] www "tiktok" = Exc permission_denied)
    by (vm_compute; reflexivity).
  split; [exact H|].
  exact (escaping_exception_origin w_remove_fails [] www "tiktok" _ H).
Defined.

(** X10.  The error line of a job names the exception of the last call
    that raised before it: when a call inside a [with] block raises and
    leaving the block raises too, it is the second exception.  The job logs
    no error line before it.  After it the job downloads, opens and sends
    nothing more, and every text it posts or edits is the error text, in the
    video wording exactly when the fetcher had given a path with a video
    extension. *)
Theorem error_branch w h url platform e :
  In (error_log url e) (job_events w h url platform) ->
  exists pre post,
    job_events w h url platform = pre ++ error_log url e :: post /\
    last_raised pre = Some e /\
    Forall (fun ev => is_error_log ev = false) pre /\
    Forall (fun ev => is_fetch ev = false /\ is_open ev = false /\
                      is_send ev = false) post /\
    Forall (fun ev =>
              match text_posted ev with
              | Some t =>
                  t = error_message
                        (obtained_path (job_events w h url platform)) platform
              | None => True
              end) post.
Proof.
  unfold error_log.
  job_analysis.
  all: intros H; in_cases H.
  all: lazymatch goal with
       | |- exists pre post, ?tr = _ /\ _ =>
           let b := before_error_log tr in
           exists b; eexists; cbn [app];
           split; [reflexivity|]
       end.
  all: split; [reflexivity|].
  all: cbn [obtained_path text_posted].
  all: repeat split; repeat constructor.
Qed.

Lemma error_branch_witness :
  In (error_log www network_error)
     (job_events w_fetch_and_edit_fail [] www "tiktok") /\
  exists pre post,
    job_events w_fetch_and_edit_fail [] www "tiktok"
      = pre ++ error_log www network_error :: post /\
    last_raised pre = Some network_error.
Proof.
  assert (H : In (error_log www network_error)
                 (job_events w_fetch_and_edit_fail [] www "tiktok"))
    by (vm_compute; in_list).
  split; [exact H|].
  destruct (error_branch w_fetch_and_edit_fail [] www "tiktok" _ H)
    as (pre & post & Htr & Hlast & _).
  exists pre, post. split; [exact Htr | exact Hlast].
Defined.

(** X11.  When the first post of a job raises, the job downloads nothing:
    it logs the error and posts the error text in the media wording, and
    that is all.  The job ends normally when this second post returns, and
    with its exception when it raises. *)
Theorem first_post_failure w h url platform e :
  In (EvReplyText (processing_text platform) (inl e))
     (job_events w h url platform) ->
  exists r,
    job_events w h url platform
      = [ EvLog DEBUG [Lit "Starting processing for "; Fmt url];
          EvReplyText (processing_text platform) (inl e);
          error_log url e;
          EvReplyText (error_message None platform) r ] /\
    job_outcome w h url platform
      = match r with inl e' => Exc e' | inr _ => Ret tt end.
Proof.
  unfold error_log.
  job_analysis.
  all: intros H; in_cases H.
  all: eexists; split; reflexivity.
Qed.

Lemma first_post_failure_witness :
  In (EvReplyText (processing_text "tiktok") (inl timed_out))
     (job_events w_chat_down [] www "tiktok") /\
  job_outcome w_chat_down [] www "tiktok" = Exc timed_out.
Proof.
  assert (H : In (EvReplyText (processing_text "tiktok") (inl timed_out))
                 (job_events w_chat_down [] www "tiktok"))
    by (vm_compute; in_list).
  split; [exact H|].
  destruct (first_post_failure w_chat_down [] www "tiktok" _ H)
    as (r & Htr & Hout).
  rewrite Hout. vm_compute in Htr. injection Htr as <-. reflexivity.
Defined.

(** X12.  Once the video has gone out, the job can still fail: closing the
    file or the last edit can raise.  The status message then ends with the
    error text in the video wording, or, when the chat refuses that edit
    too, it keeps the Sending video text and the error text is posted as a
    new message.  Otherwise it ends with the success text and the job logs
    no error. *)
Theorem status_after_video_delivery w h url platform p c :
  In (EvReplyVideo p c (inr tt)) (job_events w h url platform) ->
  error_kind (Some p) = "video"%string /\
  ((status_text (job_events w h url platform)
      = Some "Video sent successfully!"%string /\
    Forall (fun ev => is_error_log ev = false) (job_events w h url platform)) \/
   (exists e, In (error_log url e) (job_events w h url platform) /\
      (status_text (job_events w h url platform)
         = Some (error_message (Some p) platform) \/
       (status_text (job_events w h url platform)
          = Some (sending_video_text platform) /\
        exists r, In (EvReplyText (error_message (Some p) platform) r)
                     (job_events w h url platform))))).
Proof.
  unfold error_log.
  job_analysis.
  all: intros H; in_cases H.
  all: split;
    [ apply error_kind_video; eexists; split; [reflexivity | assumption] |].
  all: unfold status_text, status_after; cbn [fold_left status_step];
    own_message.
  all: first
         [ left; split; [reflexivity | repeat constructor]
         | right; eexists; split; [in_list|]; left; reflexivity
         | right; eexists; split; [in_list|]; right; split;
           [reflexivity | eexists; in_list] ].
Qed.

Lemma status_after_video_delivery_witness :
  In (EvReplyVideo "downloads/987.mp4" (caption "tiktok" www) (inr tt))
     (job_events w_last_edit_fails [] www "tiktok") /\
  status_text (job_events w_last_edit_fails [] www "tiktok")
    = Some "Error sending video from Tiktok. Please try again or use a different link."%string /\
  error_kind (Some "downloads/987.mp4") = "video"%string.
Proof.
  assert (H : In (EvReplyVideo "downloads/987.mp4" (caption "tiktok" www) (inr tt))
                 (job_events w_last_edit_fails [] www "tiktok"))
    by (vm_compute; in_list).
  split; [exact H|]. split; [vm_compute; reflexivity|].
  exact (proj1 (status_after_video_delivery
                  w_last_edit_fails [] www "tiktok" _ _ H)).
Defined.

(** X13.  The job calls the fetcher once, for its own url and with the
    options of [YDL_OPTS], and only after the Processing post returned a
    message and the downloads directory was made.  The downloader is left
    whether the fetch returned or raised, and the file name is asked for
    only with the information the fetch returned. *)
Theorem fetch_is_guarded w h url platform u r :
  In (EvExtractInfo u r) (job_events w h url platform) ->
  u = url /\
  exists sm left_ rest,
    job_events w h url platform
      = [ EvLog DEBUG [Lit "Starting processing for "; Fmt url];
          EvReplyText (processing_text platform) (inr sm);
          EvMakedirs "downloads" (inr tt);
          EvLog DEBUG [Lit "Creating downloads directory"];
          EvLog DEBUG [Lit "Downloading media from "; Fmt url];
          EvYoutubeDL YDL_OPTS (inr tt);
          EvExtractInfo url r ] ++ rest /\
    In (EvYoutubeDLExit left_) rest /\
    Forall (fun ev => match ev with
                      | EvExtractInfo _ _ | EvYoutubeDL _ _ | EvMakedirs _ _ =>
                          False
                      | EvPrepareFilename i _ => r = inr i
                      | _ => True
                      end) rest.
Proof.
  job_analysis.
  all: intros H; in_cases H.
  all: (split; [reflexivity|]); do 3 eexists; cbn [app].
  all: split; [reflexivity|].
  all: split; [in_list | repeat constructor].
Qed.

Lemma fetch_is_guarded_witness :
  In (EvExtractInfo www (inl network_error))
     (job_events w_fetch_and_edit_fail [] www "tiktok") /\
  exists left_, In (EvYoutubeDLExit left_)
                   (job_events w_fetch_and_edit_fail [] www "tiktok").
Proof.
  assert (H : In (EvExtractInfo www (inl network_error))
                 (job_events w_fetch_and_edit_fail [] www "tiktok"))
    by (vm_compute; in_list).
  split; [exact H|].
  destruct (fetch_is_guarded w_fetch_and_edit_fail [] www "tiktok" _ _ H)
    as (_ & sm & left_ & rest & Htr & Hexit & _).
  exists left_. rewrite Htr. apply in_or_app. right. exact Hexit.
Defined.

(** ** More on a message *)

(** What [handle_message] does after its first log line. *)
Lemma handle_message_run U mt w h :
  handle_message U mt w h tt
  = if truthy mt
    then match jobs (link_matcher U (text_of mt)) w
                    (h ++ [EvLog DEBUG [Lit "Received message: "; FmtText mt]]) tt
         with
         | (r, s, t) =>
             (r, s, EvLog DEBUG [Lit "Received message: "; FmtText mt] :: t)
         end
    else (Ret tt, tt, [EvLog DEBUG [Lit "Received message: "; FmtText mt]]).
Proof.
  unfold handle_message, bind at 1, logger_debug.
  destruct (truthy mt); cbn [negb]; [|reflexivity].
  rewrite nested_loops.
  now destruct (jobs _ w _ tt) as [[r s] t].
Qed.

(** X4.  A message without text, or with fewer characters than the
    shortest link has, starts no job: apart from its first log line
    [handle_message] does nothing, whatever the world answers. *)
Theorem short_message_starts_no_job U w h mt :
  length (text_of mt) < shortest_link ->
  handle_message U mt w h tt
  = (Ret tt, tt, [EvLog DEBUG [Lit "Received message: "; FmtText mt]]).
Proof.
  intros Hlen. rewrite handle_message_run.
  destruct (truthy mt); [|reflexivity].
  now rewrite (no_link_in_short_text U _ Hlen).
Qed.

Lemma short_message_starts_no_job_witness :
  length (text_of (Some (str "https://x.com/a"))) < shortest_link /\
  handle_message ascii_db (Some (str "https://x.com/a")) w_ok [] tt
  = (Ret tt, tt,
     [EvLog DEBUG [Lit "Received message: ";
                   FmtText (Some (str "https://x.com/a"))]]).
Proof.
  assert (H : length (text_of (Some (str "https://x.com/a"))) < shortest_link)
    by (vm_compute; lia).
  split; [exact H|].
  exact (short_message_starts_no_job ascii_db w_ok [] _ H).
Defined.

Lemma processing_text_is_processing platform :
  startswith (processing_text platform) "Processing media from " = true.
Proof. reflexivity. Qed.

Lemma error_message_is_not_processing fp platform :
  startswith (error_message fp platform) "Processing media from " = false.
Proof. reflexivity. Qed.

(** A job posts its Processing text once. *)
Lemma job_processing_post w h url platform :
  map text_posted (filter is_processing_post (job_events w h url platform))
  = [Some (processing_text platform)].
Proof.
  job_analysis.
  all: cbn [filter is_processing_post];
    rewrite ?processing_text_is_processing, ?error_message_is_not_processing;
    reflexivity.
Qed.

(** The events of the jobs of [links]: the Processing posts are those of
    the links taken up, in order, and every link is taken up when the run
    ends normally. *)
Lemma jobs_processing_posts w : forall links h r tr,
  jobs links w h tt = (r, tt, tr) ->
  exists done rest,
    links = done ++ rest /\
    map text_posted (filter is_processing_post tr)
      = map (fun link : string * pyval => Some (processing_text (fst link))) done /\
    (r = Ret tt -> rest = []).
Proof.
  induction links as [|[platform url] links IH]; intros h r tr H.
  - injection H as <- <-. now exists [], [].
  - rewrite jobs_cons in H. cbv zeta in H.
    destruct (job_outcome w (h ++ [url_log platform url]) url platform)
      as [[]|e].
    + destruct (jobs links w _ tt) as [[r' []] t'] eqn:E.
      injection H as <- <-.
      destruct (IH _ _ _ E) as (done & rest & -> & Hposts & Hrest).
      exists ((platform, url) :: done), rest.
      split; [reflexivity|]. split; [|exact Hrest].
      cbn [filter is_processing_post url_log map fst].
      rewrite filter_app, map_app, job_processing_post, Hposts. reflexivity.
    + injection H as <- <-.
      exists [(platform, url)], links.
      split; [reflexivity|]. split; [|discriminate].
      cbn [filter is_processing_post url_log map fst].
      now rewrite job_processing_post.
Qed.

(** X14.  The Processing texts a message brings up are those of the links
    [handle_message] took up, one post per link and in the order of the
    scan; when [handle_message] returns normally every matched link was
    taken up. *)
Theorem one_processing_post_per_link U w h mt r tr :
  handle_message U mt w h tt = (r, tt, tr) ->
  exists done rest,
    link_matcher U (text_of mt) = done ++ rest /\
    map text_posted (filter is_processing_post tr)
      = map (fun link : string * pyval => Some (processing_text (fst link))) done /\
    (r = Ret tt -> rest = []).
Proof.
  rewrite handle_message_run. destruct (truthy mt) eqn:Ht.
  - destruct (jobs _ w _ tt) as [[r' []] t'] eqn:E.
    intros [= <- <-]. cbn [filter is_processing_post].
    exact (jobs_processing_posts w _ _ _ _ E).
  - intros [= <- <-].
    assert (Hmt : text_of mt = []) by (now destruct mt as [[|c t]|]).
    rewrite Hmt, (no_link_in_short_text U []);
      [| unfold shortest_link; cbn; lia].
    now exists [], [].
Qed.

Lemma one_processing_post_per_link_witness :
  handle_message ascii_db
    (Some (str "see http://blog.tumblr.com/post/123 !")) w_ok [] tt
  = (Ret tt, tt,
     snd (handle_message ascii_db
            (Some (str "see http://blog.tumblr.com/post/123 !")) w_ok [] tt)) /\
  map text_posted
      (filter is_processing_post
         (snd (handle_message ascii_db
                 (Some (str "see http://blog.tumblr.com/post/123 !")) w_ok [] tt)))
    = [Some "Processing media from Tumblr..."%string].
Proof.
  assert (H : handle_message ascii_db
                (Some (str "see http://blog.tumblr.com/post/123 !")) w_ok [] tt
              = (Ret tt, tt,
                 snd (handle_message ascii_db
                        (Some (str "see http://blog.tumblr.com/post/123 !"))
                        w_ok [] tt)))
    by (vm_compute; reflexivity).
  split; [exact H|].
  destruct (one_processing_post_per_link ascii_db w_ok [] _ _ _ H)
    as (done & rest & Hlinks & Hposts & Hrest).
  rewrite Hposts. rewrite (Hrest eq_refl), app_nil_r in Hlinks.
  rewrite <- Hlinks. vm_compute. reflexivity.
Defined.

(** ** The error hook *)

Lemma last_raised_app tr1 tr2 e :
  last_raised tr2 = Some e -> last_raised (tr1 ++ tr2) = Some e.
Proof.
  unfold last_raised. intros H.
  destruct (last_raising tr2) as [ev|] eqn:E; [|discriminate H].
  assert (Hl : last_raising (tr1 ++ tr2) = Some ev).
  { induction tr1 as [|x tr1 IH]; [exact E|].
    cbn [app last_raising]. now rewrite IH. }
  now rewrite Hl.
Qed.

(** The exception that leaves a job is the one of its last call that
    raised. *)
Lemma job_escape_last_raised w h url platform e :
  job_outcome w h url platform = Exc e ->
  last_raised (job_events w h url platform) = Some e.
Proof.
  job_analysis.
  all: intros Hr; first [discriminate Hr | injection Hr as ->].
  all: reflexivity.
Qed.

(** A job never posts the notice of the error hook. *)
Lemma job_posts_no_notice w h url platform :
  Forall (fun ev => text_posted ev <> Some generic_notice)
         (job_events w h url platform).
Proof.
  job_analysis.
  all: repeat constructor.
  all: cbn [text_posted]; intros T; discriminate T.
Qed.

Lemma jobs_escape w : forall links h r tr,
  jobs links w h tt = (r, tt, tr) ->
  Forall (fun ev => text_posted ev <> Some generic_notice) tr /\
  (forall e, r = Exc e -> last_raised tr = Some e).
Proof.
  induction links as [|[platform url] links IH]; intros h r tr H.
  - injection H as <- <-. split; [constructor | discriminate].
  - rewrite jobs_cons in H. cbv zeta in H.
    destruct (job_outcome w (h ++ [url_log platform url]) url platform)
      as [[]|e] eqn:Hout.
    + destruct (jobs links w _ tt) as [[r' []] t'] eqn:E.
      injection H as <- <-.
      destruct (IH _ _ _ E) as (Hno & Hlast).
      split.
      * constructor; [discriminate|].
        apply Forall_app. split; [apply job_posts_no_notice | exact Hno].
      * intros e He. specialize (Hlast e He).
        change (last_raised (([url_log platform url]
                  ++ job_events w (h ++ [url_log platform url]) url platform)
                  ++ t') = Some e).
        now apply last_raised_app.
    + injection H as <- <-. split.
      * constructor; [discriminate | apply job_posts_no_notice].
      * intros e' [= <-].
        change (last_raised ([url_log platform url]
                  ++ job_events w (h ++ [url_log platform url]) url platform)
                = Some e).
        apply last_raised_app. now apply job_escape_last_raised.
Qed.

(** X15.  [error_handler] is the error handler [main] registers.  When
    an exception leaves [handle_message] for an update and the handler is
    called with that update and that exception, then for an update with a
    message the exception is the one of the last call that raised, the
    handler logs the update and the exception and posts its notice once,
    after every event of the jobs, and none of these events posted that
    text; its outcome is the one of that post.  For an update without
    message the first line of [handle_message] raised before any event, and
    the handler logs and posts nothing. *)
Theorem error_hook_after_escape U u w h e tr :
  handle_message_of U u w h tt = (Exc e, tt, tr) ->
  Forall (fun ev => text_posted ev <> Some generic_notice) tr /\
  match update_message u with
  | Some _ =>
      last_raised tr = Some e /\
      exists r',
        @error_handler unit (Some u) e w (h ++ tr) tt
        = (match r' with inl e' => Exc e' | inr _ => Ret tt end, tt,
           [hook_log u e; EvReplyText generic_notice r'])
  | None =>
      tr = [] /\ e = no_message_error /\
      @error_handler unit (Some u) e w (h ++ tr) tt
      = (Ret tt, tt, [hook_log u e])
  end.
Proof.
  unfold handle_message_of.
  destruct u as [repr [mt|]]; cbn [update_message].
  - rewrite handle_message_run. intros Hrun.
    assert (Hjobs : Forall (fun ev => text_posted ev <> Some generic_notice) tr /\
                    last_raised tr = Some e).
    { destruct (truthy mt); [|discriminate Hrun].
      destruct (jobs _ w _ tt) as [[r' []] t'] eqn:E.
      injection Hrun as -> <-.
      destruct (jobs_escape w _ _ _ _ E) as (Hno & Hlast).
      split; [constructor; [discriminate | exact Hno]|].
      change (last_raised ([EvLog DEBUG [Lit "Received message: "; FmtText mt]]
                             ++ t') = Some e).
      apply last_raised_app. now apply Hlast. }
    destruct Hjobs as (Hno & Hlast).
    split; [exact Hno|]. split; [exact Hlast|].
    unfold error_handler, bind, logger_error, reply_text, perform, ret.
    cbn [fst snd app update_repr update_message].
    unfold hook_log, generic_notice. cbn [update_repr].
    match goal with
    | |- context [w_reply_text ?w' ?h' ?t'] =>
        exists (w_reply_text w' h' t'); destruct (w_reply_text w' h' t')
    end; reflexivity.
  - unfold raise. intros [= <- <-].
    split; [constructor|]. repeat split.
Qed.

Lemma error_hook_after_escape_witness :
  handle_message_of ascii_db tumblr_update w_remove_fails [] tt
  = (Exc permission_denied, tt,
     snd (handle_message_of ascii_db tumblr_update w_remove_fails [] tt)) /\
  last_raised (snd (handle_message_of ascii_db tumblr_update w_remove_fails [] tt))
  = Some permission_denied.
Proof.
  assert (H : handle_message_of ascii_db tumblr_update w_remove_fails [] tt
              = (Exc permission_denied, tt,
                 snd (handle_message_of ascii_db tumblr_update w_remove_fails [] tt)))
    by (vm_compute; reflexivity).
  split; [exact H|].
  exact (proj1 (proj2 (error_hook_after_escape ascii_db tumblr_update
                         w_remove_fails [] _ _ H))).
Defined.
